(** * Voice Research Assistant: session, playback and transcript logic

    A shallow embedding of [App.tsx] (the session controller: [startSession],
    [stopSession], the [onopen] / [onmessage] / [onerror] / [onclose]
    callbacks and the microphone callback), of [types.ts] and of the part of
    [AudioVisualizer.tsx] that decides whether the visualizer analyses the
    stream.

    Conventions.
    - Times (the output clock [audioContextOut.currentTime], buffer durations
      and the cursor [nextStartTimeRef.current]) are JavaScript numbers that
      are never negative; the code only compares and adds them, so they are
      modelled as [N] (clock ticks).
    - Mutable refs ([useRef]) live in the record [Refs]; React state
      ([useState]) lives in [UI]; calls of platform objects are logged in a
      trace of [Effect]s.
    - A [setX(...)] call does not change the React state at once: it puts an
      update in the component's queue, and the updates are applied when React
      renders next ([render]).  An updater function [prev => ...] is a
      closure: what it reads from a ref is read when React invokes it. *)

From Stdlib Require Import List String Ascii Bool Arith ZArith NArith Lia.
From Stdlib Require QArith Qabs.
Import ListNotations.
Local Open Scope string_scope.

(* ================================================================== *)
(** ** types.ts *)

Inductive Role := user | assistant.

Record TranscriptionEntry := mkEntry {
  id : string;
  role : Role;
  text : string;
  timestamp : Z
}.

Record GroundingSource := mkSource {
  title : string;
  uri : string
}.

Definition Role_eqb (a b : Role) : bool :=
  match a, b with
  | user, user | assistant, assistant => true
  | _, _ => false
  end.

Definition source_eqb (a b : GroundingSource) : bool :=
  String.eqb (title a) (title b) && String.eqb (uri a) (uri b).

(* ================================================================== *)
(** ** The citation merge of [onmessage] (lines 144-150)

    [new Map(pairs)] inserts the pairs from left to right.  A JavaScript
    [Map] iterates in insertion order, and [set] on a key that is already
    present replaces the value and leaves the key where it is. *)

Module JsMap.

Definition t := list (string * GroundingSource).

(** [Map.prototype.set] *)
Fixpoint set (k : string) (v : GroundingSource) (m : t) : t :=
  match m with
  | [] => [(k, v)]
  | (k', v') :: m' =>
      if String.eqb k k' then (k', v) :: m'
      else (k', v') :: set k v m'
  end.

(** [Map.prototype.get] *)
Fixpoint get (k : string) (m : t) : option GroundingSource :=
  match m with
  | [] => None
  | (k', v') :: m' => if String.eqb k k' then Some v' else get k m'
  end.

(** [new Map(iterable)] started from the map [m] ([m = []] for [new Map]) *)
Definition set_all (kvs : list (string * GroundingSource)) (m : t) : t :=
  fold_left (fun acc kv => set (fst kv) (snd kv) acc) kvs m.

Definition new_Map (kvs : list (string * GroundingSource)) : t :=
  set_all kvs [].

(** [Map.prototype.keys] and [Map.prototype.values] *)
Definition keys (m : t) : list string := map fst m.
Definition values (m : t) : list GroundingSource := map snd m.

End JsMap.

(** [Array.from(new Map(combined.map(s => [s.uri, s])).values())] *)
Definition dedupe (combined : list GroundingSource) : list GroundingSource :=
  JsMap.values (JsMap.new_Map (map (fun s => (uri s, s)) combined)).

(** The updater given to [setGroundingSources]:
    [prev => { const combined = [...prev, ...newSources]; return dedupe }] *)
Definition mergeSources (newSources prev : list GroundingSource)
  : list GroundingSource :=
  dedupe (prev ++ newSources).

(** Reference functions used to state what the merge computes. *)

(** The distinct keys of a list, in the order of their first occurrence. *)
Fixpoint first_occurrences (l : list string) : list string :=
  match l with
  | [] => []
  | k :: l' => k :: remove string_dec k (first_occurrences l')
  end.

(** The last source of [l] that has URI [u]. *)
Definition last_with_uri (u : string) (l : list GroundingSource)
  : option GroundingSource :=
  find (fun s => String.eqb u (uri s)) (rev l).

(** The reading of the merge under which the place of an entry is that of
    the LAST occurrence of its URI: an element is kept when its URI does not
    occur again later in the list. *)
Fixpoint dedupe_keep_last (l : list GroundingSource) : list GroundingSource :=
  match l with
  | [] => []
  | s :: l' =>
      if existsb (fun s' => String.eqb (uri s) (uri s')) l'
      then dedupe_keep_last l'
      else s :: dedupe_keep_last l'
  end.

(** Auxiliary functions of the proofs about the merge. *)

(** The keys of a map after inserting the keys [ks] one by one. *)
Fixpoint add_keys (ks acc : list string) : list string :=
  match ks with
  | [] => acc
  | k :: ks' =>
      add_keys ks' (if in_dec string_dec k acc then acc else acc ++ [k])%list
  end.

Definition fresh_for (acc : list string) (k : string) : bool :=
  if in_dec string_dec k acc then false else true.

(** The value of the last pair with key [k]. *)
Fixpoint lookup_last (k : string) (kvs : list (string * GroundingSource))
  : option GroundingSource :=
  match kvs with
  | [] => None
  | (k', v) :: kvs' =>
      match lookup_last k kvs' with
      | Some x => Some x
      | None => if String.eqb k k' then Some v else None
      end
  end.

(** [combined.map(s => [s.uri, s])] *)
Definition keyed (l : list GroundingSource) : list (string * GroundingSource) :=
  map (fun s => (uri s, s)) l.

(** Every pair of the map has the URI of its source as key. *)
Definition well_keyed (m : JsMap.t) : Prop :=
  forall k v, In (k, v) m -> k = uri v.

(* ================================================================== *)
(** ** Platform objects, inbound messages and effects *)

Definition Time := N.

(** Identities of the objects the platform hands out: audio contexts, media
    streams, buffer source nodes and the live session. *)
Definition CtxId := nat.
Definition StreamId := nat.
Definition Handle := nat.
Definition SessionId := nat.

(** One microphone frame, [e.inputBuffer.getChannelData(0)]. *)
Definition Frame := list QArith_base.Q.

Record AudioBuffer := mkBuffer { duration : Time }.

(** [chunk.web] of a grounding chunk: the chunks are typed [any] and the code
    tests the title for truthiness, so the title may be missing. *)
Record Web := mkWeb {
  web_title : option string;
  web_uri : string
}.

Record GroundingChunk := mkChunk { web : option Web }.

(** The fields of a [LiveServerMessage] that [onmessage] reads. *)
Record LiveServerMessage := mkMessage {
  (** [serverContent?.modelTurn?.parts[0]?.inlineData?.data] *)
  inlineData : option string;
  (** [serverContent?.interrupted] *)
  interrupted : bool;
  (** [serverContent?.inputTranscription], with its [text] *)
  inputTranscription : option string;
  (** [serverContent?.outputTranscription], with its [text] *)
  outputTranscription : option string;
  (** [serverContent?.turnComplete] *)
  turnComplete : bool;
  (** [serverContent?.groundingMetadata?.groundingChunks] *)
  groundingChunks : option (list GroundingChunk)
}.

(** Calls on platform objects, in the order they are made.  [TrackStop] is
    [MediaStreamTrack.stop()], the call that releases the microphone. *)
Inductive Effect :=
| SourceStart (h : Handle) (ctx : CtxId) (buffer : AudioBuffer) (when : Time)
| SourceStop (h : Handle)
| ContextClose (c : CtxId)
| SessionClose (s : SessionId)
| SendRealtimeInput (s : SessionId) (media : string)
| TrackStop (s : StreamId).

(** Truthiness of a JavaScript string: only the empty string is falsy. *)
Definition truthy (s : string) : bool :=
  match s with
  | EmptyString => false
  | String _ _ => true
  end.

(* ================================================================== *)
(** ** Refs, React state, update queue *)

Record Refs := mkRefs {
  nextStartTimeRef : Time;
  audioContextOutRef : option CtxId;
  audioContextInRef : option CtxId;
  audioSourcesRef : list Handle;
  sessionPromiseRef : option SessionId;
  currentInputTranscriptionRef : string;
  currentOutputTranscriptionRef : string
}.

Record UI := mkUI {
  isActive : bool;
  isMuted : bool;
  entries : list TranscriptionEntry;
  groundingSources : list GroundingSource;
  audioStream : option StreamId;
  error : option string
}.

(** What a [setX] call puts in the queue.  [EntryUpdater r] is the closure
    [prev => [...prev, {id: Math.random().toString(36), role: r,
    text: <ref of r>.current, timestamp: new Date()}]] that has not been
    invoked yet; [EntryComputed e] is the same update after React has invoked
    the closure and obtained the entry [e]. *)
Inductive Update :=
| SetIsActive (b : bool)
| SetIsMuted (b : bool)
| SetAudioStream (s : option StreamId)
| SetError (e : option string)
| EntryUpdater (r : Role)
| EntryComputed (e : TranscriptionEntry)
| SourcesUpdater (newSources : list GroundingSource).

(** The local constants of one [startSession] call that its callbacks close
    over, [isMuted] being the constant of the render whose [startSession]
    was clicked.  [c_processor] tells whether [onopen] has installed the
    script processor. *)
Record Closure := mkClosure {
  c_isMuted : bool;
  c_stream : StreamId;
  c_audioContextIn : CtxId;
  c_audioContextOut : CtxId;
  c_sessionPromise : SessionId;
  c_processor : bool
}.

Record World := mkWorld {
  ui : UI;                       (* the state of the last render *)
  queue : list Update;           (* updates not yet rendered *)
  refs : Refs;
  trace : list Effect;           (* oldest first *)
  objects : nat;                 (* platform objects created so far *)
  randoms : nat;                 (* calls of Math.random() so far *)
  callbacks : option Closure     (* callbacks of the last startSession *)
}.

(** What the surroundings decide at one event. *)
Record Env := mkEnv {
  (** [audioContextOut.currentTime] *)
  currentTime : Time;
  (** [new Date()] *)
  dateNow : Z;
  (** whether React invokes an updater already in the [setX] call when the
      component has nothing queued (its eager-state path) *)
  eagerState : bool
}.

Definition initialRefs : Refs :=
  mkRefs 0%N None None [] None EmptyString EmptyString.
Definition initialUI : UI := mkUI false false [] [] None None.
Definition initialWorld : World :=
  mkWorld initialUI [] initialRefs [] 0 0 None.

(** Field updates. *)
Definition with_refs (f : Refs -> Refs) (w : World) : World :=
  mkWorld (ui w) (queue w) (f (refs w)) (trace w) (objects w) (randoms w)
          (callbacks w).

Definition emit (e : Effect) (w : World) : World :=
  mkWorld (ui w) (queue w) (refs w) (trace w ++ [e]) (objects w) (randoms w)
          (callbacks w).

Definition enqueue (u : Update) (w : World) : World :=
  mkWorld (ui w) (queue w ++ [u]) (refs w) (trace w) (objects w) (randoms w)
          (callbacks w).

Definition allocate (n : nat) (w : World) : World :=
  mkWorld (ui w) (queue w) (refs w) (trace w) (objects w + n) (randoms w)
          (callbacks w).

Definition with_callbacks (c : option Closure) (w : World) : World :=
  mkWorld (ui w) (queue w) (refs w) (trace w) (objects w) (randoms w) c.

Definition set_nextStartTime (t : Time) (r : Refs) : Refs :=
  mkRefs t (audioContextOutRef r) (audioContextInRef r) (audioSourcesRef r)
         (sessionPromiseRef r) (currentInputTranscriptionRef r)
         (currentOutputTranscriptionRef r).

Definition set_audioContexts (cin cout : option CtxId) (r : Refs) : Refs :=
  mkRefs (nextStartTimeRef r) cout cin (audioSourcesRef r)
         (sessionPromiseRef r) (currentInputTranscriptionRef r)
         (currentOutputTranscriptionRef r).

Definition set_audioSources (l : list Handle) (r : Refs) : Refs :=
  mkRefs (nextStartTimeRef r) (audioContextOutRef r) (audioContextInRef r) l
         (sessionPromiseRef r) (currentInputTranscriptionRef r)
         (currentOutputTranscriptionRef r).

Definition set_sessionPromise (s : option SessionId) (r : Refs) : Refs :=
  mkRefs (nextStartTimeRef r) (audioContextOutRef r) (audioContextInRef r)
         (audioSourcesRef r) s (currentInputTranscriptionRef r)
         (currentOutputTranscriptionRef r).

Definition set_currentInput (s : string) (r : Refs) : Refs :=
  mkRefs (nextStartTimeRef r) (audioContextOutRef r) (audioContextInRef r)
         (audioSourcesRef r) (sessionPromiseRef r) s
         (currentOutputTranscriptionRef r).

Definition set_currentOutput (s : string) (r : Refs) : Refs :=
  mkRefs (nextStartTimeRef r) (audioContextOutRef r) (audioContextInRef r)
         (audioSourcesRef r) (sessionPromiseRef r)
         (currentInputTranscriptionRef r) s.

(** The pending-text ref an entry of role [r] reads. *)
Definition pendingRef (r : Role) (rf : Refs) : string :=
  match r with
  | user => currentInputTranscriptionRef rf
  | assistant => currentOutputTranscriptionRef rf
  end.

(** [Set.prototype.add] and [Set.prototype.delete] on the insertion-ordered
    set of handles. *)
Definition Set_add (h : Handle) (s : list Handle) : list Handle :=
  if existsb (Nat.eqb h) s then s else s ++ [h].

Definition Set_delete (h : Handle) (s : list Handle) : list Handle :=
  filter (fun h' => negb (Nat.eqb h h')) s.

(** A message that carries a playable audio payload. *)
Definition carriesAudio (m : LiveServerMessage) : bool :=
  match inlineData m with
  | Some base64Audio => truthy base64Audio
  | None => false
  end.

Definition payload (m : LiveServerMessage) : string :=
  match inlineData m with
  | Some base64Audio => base64Audio
  | None => EmptyString
  end.

(* ================================================================== *)
(** ** App.tsx *)

Section App.

(** The module [./utils] is not part of the sources at hand; the two
    functions of it that decide what is played and what is sent are taken
    as parameters: [decodeAudioData(decode(base64Audio), ctx, 24000, 1)]
    and the [data] of [createBlob(inputData)]. *)
Variable decodeAudioData : string -> AudioBuffer.
Variable createBlob : Frame -> string.

(** [Math.random().toString(36)] at the [n]-th call of [Math.random]. *)
Variable randomId : nat -> string.

(** *** React: queueing and rendering *)

(** The entry object an entry updater builds when it is invoked: the text
    is the content of the ref AT THAT MOMENT. *)
Definition makeEntry (env : Env) (rf : Refs) (n : nat) (r : Role)
  : TranscriptionEntry :=
  mkEntry (randomId n) r (pendingRef r rf) (dateNow env).

(** [setEntries(prev => [...prev, {...}])].  The updater is queued; React
    may invoke it at once when nothing else is queued. *)
Definition setEntries (env : Env) (r : Role) (w : World) : World :=
  match queue w with
  | [] =>
      if eagerState env
      then mkWorld (ui w) [EntryComputed (makeEntry env (refs w) (randoms w) r)]
                   (refs w) (trace w) (objects w) (S (randoms w))
                   (callbacks w)
      else enqueue (EntryUpdater r) w
  | _ :: _ => enqueue (EntryUpdater r) w
  end.

(** One queued update applied to the state being rendered; the number is
    the count of [Math.random] calls. *)
Definition applyUpdate (env : Env) (rf : Refs) (st : UI * nat) (u : Update)
  : UI * nat :=
  let (s, n) := st in
  match u with
  | SetIsActive b =>
      (mkUI b (isMuted s) (entries s) (groundingSources s) (audioStream s)
            (error s), n)
  | SetIsMuted b =>
      (mkUI (isActive s) b (entries s) (groundingSources s) (audioStream s)
            (error s), n)
  | SetAudioStream a =>
      (mkUI (isActive s) (isMuted s) (entries s) (groundingSources s) a
            (error s), n)
  | SetError e =>
      (mkUI (isActive s) (isMuted s) (entries s) (groundingSources s)
            (audioStream s) e, n)
  | EntryUpdater r =>
      (mkUI (isActive s) (isMuted s) (entries s ++ [makeEntry env rf n r])
            (groundingSources s) (audioStream s) (error s), S n)
  | EntryComputed e =>
      (mkUI (isActive s) (isMuted s) (entries s ++ [e])
            (groundingSources s) (audioStream s) (error s), n)
  | SourcesUpdater newSources =>
      (mkUI (isActive s) (isMuted s) (entries s)
            (mergeSources newSources (groundingSources s)) (audioStream s)
            (error s), n)
  end.

(** A render of [App]: the queued updates are applied in order, the
    updaters reading the refs as they are now. *)
Definition render (env : Env) (w : World) : World :=
  let st := fold_left (applyUpdate env (refs w)) (queue w)
                      (ui w, randoms w) in
  mkWorld (fst st) [] (refs w) (trace w) (objects w) (snd st) (callbacks w).

(** *** stopSession (lines 25-34) *)

Definition closeContext (c : option CtxId) (w : World) : World :=
  match c with
  | Some ctx => emit (ContextClose ctx) w
  | None => w
  end.

(** [audioSourcesRef.current.forEach(s => s.stop())] *)
Definition stopAll (w : World) : World :=
  fold_left (fun acc s => emit (SourceStop s) acc)
            (audioSourcesRef (refs w)) w.

Definition stopSession (w : World) : World :=
  let w := enqueue (SetIsActive false) w in
  let w := enqueue (SetAudioStream None) w in
  let w := closeContext (audioContextInRef (refs w)) w in
  let w := closeContext (audioContextOutRef (refs w)) w in
  let w := stopAll w in
  let w := with_refs (set_audioSources []) w in
  let w := match sessionPromiseRef (refs w) with
           | Some session => emit (SessionClose session) w
           | None => w
           end in
  with_refs (set_sessionPromise None) w.

(** *** The callbacks given to [ai.live.connect] (lines 53-161) *)

(** [scriptProcessor.onaudioprocess] (lines 57-64).  [isMuted] is the
    constant the closure captured. *)
Definition onaudioprocess (cl : Closure) (inputData : Frame) (w : World)
  : World :=
  if c_isMuted cl then w
  else emit (SendRealtimeInput (c_sessionPromise cl) (createBlob inputData)) w.

Definition onopen (cl : Closure) (w : World) : World :=
  (* createMediaStreamSource, createScriptProcessor *)
  let w := allocate 2 w in
  let w := with_callbacks
             (Some (mkClosure (c_isMuted cl) (c_stream cl)
                              (c_audioContextIn cl) (c_audioContextOut cl)
                              (c_sessionPromise cl) true)) w in
  enqueue (SetIsActive true) w.

(** Lines 72-93: an audio payload is decoded and scheduled. *)
Definition handleAudio (cl : Closure) (env : Env) (base64Audio : string)
                       (w : World) : World :=
  let audioBuffer := decodeAudioData base64Audio in
  (* createBufferSource, createGain *)
  let source := objects w in
  let w := allocate 2 w in
  let w := with_refs
             (fun r => set_nextStartTime
                         (N.max (nextStartTimeRef r) (currentTime env)) r) w in
  let w := emit (SourceStart source (c_audioContextOut cl) audioBuffer
                             (nextStartTimeRef (refs w))) w in
  let w := with_refs
             (fun r => set_nextStartTime
                         (nextStartTimeRef r + duration audioBuffer)%N r) w in
  with_refs (fun r => set_audioSources (Set_add source (audioSourcesRef r)) r)
            w.

(** Lines 96-100. *)
Definition handleInterrupted (w : World) : World :=
  let w := stopAll w in
  let w := with_refs (set_audioSources []) w in
  with_refs (set_nextStartTime 0%N) w.

(** Lines 103-108. *)
Definition handleTranscriptions (message : LiveServerMessage) (w : World)
  : World :=
  let w := match inputTranscription message with
           | Some t =>
               with_refs (fun r => set_currentInput
                                     (currentInputTranscriptionRef r ++ t) r) w
           | None => w
           end in
  match outputTranscription message with
  | Some t =>
      with_refs (fun r => set_currentOutput
                            (currentOutputTranscriptionRef r ++ t) r) w
  | None => w
  end.

(** Lines 111-130. *)
Definition handleTurnComplete (env : Env) (w : World) : World :=
  let w := if truthy (currentInputTranscriptionRef (refs w))
           then setEntries env user w else w in
  let w := if truthy (currentOutputTranscriptionRef (refs w))
           then setEntries env assistant w else w in
  let w := with_refs (set_currentInput EmptyString) w in
  with_refs (set_currentOutput EmptyString) w.

(** Lines 136-143: [chunks.forEach(chunk => { if (chunk.web) push })]. *)
Definition sourceOfWeb (wb : Web) : GroundingSource :=
  mkSource (match web_title wb with
            | Some t => if truthy t then t else "Untitled Source"
            | None => "Untitled Source"
            end)
           (web_uri wb).

Definition collectSources (chunks : list GroundingChunk)
  : list GroundingSource :=
  fold_left (fun newSources chunk =>
               match web chunk with
               | Some wb => (newSources ++ [sourceOfWeb wb])%list
               | None => newSources
               end) chunks [].

(** Lines 133-151. *)
Definition handleGrounding (chunks : list GroundingChunk) (w : World)
  : World :=
  let newSources := collectSources chunks in
  if (0 <? List.length newSources)%nat
  then enqueue (SourcesUpdater newSources) w
  else w.

Definition onmessage (cl : Closure) (env : Env)
                     (message : LiveServerMessage) (w : World) : World :=
  let w := match inlineData message with
           | Some base64Audio =>
               if truthy base64Audio then handleAudio cl env base64Audio w
               else w
           | None => w
           end in
  let w := if interrupted message then handleInterrupted w else w in
  let w := handleTranscriptions message w in
  let w := if turnComplete message then handleTurnComplete env w else w in
  match groundingChunks message with
  | Some chunks => handleGrounding chunks w
  | None => w
  end.

Definition onerror (w : World) : World :=
  let w := enqueue (SetError
                      (Some "Connection error occurred. Please try again.")) w in
  stopSession w.

Definition onclose (w : World) : World :=
  enqueue (SetIsActive false) w.

(** [source.onended = () => audioSourcesRef.current.delete(source)] *)
Definition onended (source : Handle) (w : World) : World :=
  with_refs (fun r => set_audioSources
                        (Set_delete source (audioSourcesRef r)) r) w.

(** *** startSession (lines 36-180) *)

Definition startSession (granted : bool) (w : World) : World :=
  let w := enqueue (SetError None) w in
  if granted then
    let stream := objects w in
    let audioContextIn := S (objects w) in
    let audioContextOut := S (S (objects w)) in
    let sessionPromise := S (S (S (objects w))) in
    let w := allocate 4 w in
    let w := enqueue (SetAudioStream (Some stream)) w in
    let w := with_refs (set_audioContexts (Some audioContextIn)
                                          (Some audioContextOut)) w in
    let w := with_refs (set_nextStartTime 0%N) w in
    let w := with_callbacks
               (Some (mkClosure (isMuted (ui w)) stream audioContextIn
                                audioContextOut sessionPromise false)) w in
    with_refs (set_sessionPromise (Some sessionPromise)) w
  else
    enqueue (SetError
               (Some "Could not access microphone. Please check permissions."))
            w.

(** The mute button: [onClick={() => setIsMuted(!isMuted)}]. *)
Definition toggleMute (w : World) : World :=
  enqueue (SetIsMuted (negb (isMuted (ui w)))) w.

(** *** Events *)

Inductive Event :=
| ClickStart (granted : bool)
| ClickMute
| ClickStop
| Open
| Message (message : LiveServerMessage)
| Error
| Close
| AudioProcess (inputData : Frame)
| Ended (source : Handle)
| Render.

(** One event.  The start button is rendered while [!isActive], the mute
    and stop buttons while [isActive]; the callbacks exist once
    [startSession] has run, the microphone callback once [onopen] has. *)
Definition step (w : World) (ev : Env * Event) : World :=
  let (env, e) := ev in
  match e with
  | ClickStart granted =>
      if isActive (ui w) then w else startSession granted w
  | ClickMute => if isActive (ui w) then toggleMute w else w
  | ClickStop => if isActive (ui w) then stopSession w else w
  | Open =>
      match callbacks w with Some cl => onopen cl w | None => w end
  | Message message =>
      match callbacks w with
      | Some cl => onmessage cl env message w
      | None => w
      end
  | Error => match callbacks w with Some _ => onerror w | None => w end
  | Close => match callbacks w with Some _ => onclose w | None => w end
  | AudioProcess inputData =>
      match callbacks w with
      | Some cl => if c_processor cl then onaudioprocess cl inputData w else w
      | None => w
      end
  | Ended source => onended source w
  | Render => render env w
  end.

Definition run (w : World) (evs : list (Env * Event)) : World :=
  fold_left step evs w.

(** The tail of [onmessage] after the audio and interruption branches. *)
Definition afterPlayback (env : Env) (m : LiveServerMessage) (w : World)
  : World :=
  let w := handleTranscriptions m w in
  let w := if turnComplete m then handleTurnComplete env w else w in
  match groundingChunks m with
  | Some chunks => handleGrounding chunks w
  | None => w
  end.

(** The messages of a burst, delivered in order. *)
Definition deliver (cl : Closure) (w : World)
                   (ms : list (Env * LiveServerMessage)) : World :=
  fold_left (fun acc em => onmessage cl
                                     (fst em) (snd em) acc) ms w.

(** The scheduling calls a burst of audio messages makes. *)
Definition calls (ms : list (Env * LiveServerMessage)) : list (Time * Time) :=
  map (fun em => (currentTime (fst em),
                  duration (decodeAudioData (payload (snd em))))) ms.

End App.

(** *** AudioVisualizer.tsx, lines 9-13: whether the effect analyses the
    stream ([App] passes [isListening = isActive && !isMuted]). *)
Definition visualizerAnalyses (s : UI) : bool :=
  match audioStream s with
  | Some _ => isActive s && negb (isMuted s)
  | None => false
  end.

(* ================================================================== *)
(** ** Notions used in the statements *)

(** The playback starts logged in a trace: (start time, duration). *)
Definition scheduled (tr : list Effect) : list (Time * Time) :=
  flat_map (fun e => match e with
                     | SourceStart _ _ buffer when => [(when, duration buffer)]
                     | _ => []
                     end) tr.

(** The schedule that starts at [s] and plays the durations [ds] back to
    back: every start is the previous start plus the previous duration. *)
Fixpoint back_to_back (s : Time) (ds : list Time) : list (Time * Time) :=
  match ds with
  | [] => []
  | d :: ds' => (s, d) :: back_to_back (s + d)%N ds'
  end.

(** start[i+1] = start[i] + d[i] for the neighbours of a schedule. *)
Fixpoint gapless (l : list (Time * Time)) : Prop :=
  match l with
  | [] => True
  | (s, d) :: l' =>
      match l' with
      | [] => True
      | (s', _) :: _ => s' = (s + d)%N /\ gapless l'
      end
  end.

(** Scheduling calls given as (output clock at the call, duration of the
    chunk).  [on_time e calls]: each call is made strictly before the
    predicted end of the chunk scheduled before it, [e] being the predicted
    end of the chunk before the first call. *)
Fixpoint on_time (predicted_end : Time) (calls : list (Time * Time)) : Prop :=
  match calls with
  | [] => True
  | (clock, d) :: calls' =>
      (clock < predicted_end)%N /\ on_time (predicted_end + d)%N calls'
  end.

(** The rule "start at max(cursor, clock), then advance the cursor by the
    duration", run from the cursor [c]. *)
Fixpoint max_schedule (c : Time) (calls : list (Time * Time))
  : list (Time * Time) :=
  match calls with
  | [] => []
  | (clock, d) :: calls' =>
      (N.max c clock, d) :: max_schedule (N.max c clock + d)%N calls'
  end.

(** The cursor of the playback scheduler. *)
Definition cursor (w : World) : Time := nextStartTimeRef (refs w).

(** What the scheduler owns: cursor, active set, trace, object counter. *)
Definition playback (w : World) : Time * list Handle * list Effect * nat :=
  (nextStartTimeRef (refs w), audioSourcesRef (refs w), trace w, objects w).

(** An audio chunk that does not interrupt. *)
Definition isChunk (em : Env * LiveServerMessage) : Prop :=
  carriesAudio (snd em) = true /\ interrupted (snd em) = false.

(** The events that reset the cursor: a new session and an interruption. *)
Definition resetsCursor (e : Event) : bool :=
  match e with
  | ClickStart _ => true
  | Message m => interrupted m
  | _ => false
  end.

(** The web chunks of a chunk list, in order. *)
Definition webChunks (chunks : list GroundingChunk) : list Web :=
  flat_map (fun chunk => match web chunk with
                         | Some wb => [wb]
                         | None => []
                         end) chunks.

(** The citation sequence that results from the queued merges. *)
Definition sourcesOf (q : list Update) (base : list GroundingSource)
  : list GroundingSource :=
  fold_left (fun acc u => match u with
                          | SourcesUpdater newSources =>
                              mergeSources newSources acc
                          | _ => acc
                          end) q base.

(** A host for the examples: the decoded buffer lasts one tick per character
    of the payload. *)
Definition demoDecode (base64Audio : string) : AudioBuffer :=
  mkBuffer (N.of_nat (String.length base64Audio)).

Definition demoBlob (inputData : Frame) : string := "pcm".

Definition demoRandom (n : nat) : string :=
  match n with
  | 0 => "0.a1"
  | 1 => "0.b2"
  | _ => "0.c3"
  end.

Definition audioMessage (base64Audio : string) : LiveServerMessage :=
  mkMessage (Some base64Audio) false None None false None.

Definition interruptMessage : LiveServerMessage :=
  mkMessage None true None None false None.

Definition inputMessage (t : string) : LiveServerMessage :=
  mkMessage None false (Some t) None false None.

Definition outputMessage (t : string) : LiveServerMessage :=
  mkMessage None false None (Some t) false None.

Definition turnCompleteMessage : LiveServerMessage :=
  mkMessage None false None None true None.

Definition groundingMessage (chunks : list GroundingChunk)
  : LiveServerMessage :=
  mkMessage None false None None false (Some chunks).

Definition at_clock (t : Time) : Env := mkEnv t 1000 false.

Definition demoClosure : Closure := mkClosure false 0 1 2 3 true.

(** The calls [stopSession] makes on the objects the refs [r] hold. *)
Definition teardownEffects (r : Refs) : list Effect :=
  ((match audioContextInRef r with Some c => [ContextClose c] | None => [] end)
   ++ (match audioContextOutRef r with Some c => [ContextClose c] | None => [] end)
   ++ map SourceStop (audioSourcesRef r)
   ++ (match sessionPromiseRef r with Some s => [SessionClose s] | None => [] end)
  )%list.

(** The citation sequence the next render shows. *)
Definition citations (w : World) : list GroundingSource :=
  sourcesOf (queue w) (groundingSources (ui w)).

(** Example sessions: the user starts, the connection opens, React renders;
    in [activeWorld] one audio chunk has been scheduled as well. *)
Definition demoRun : World -> list (Env * Event) -> World :=
  run demoDecode demoBlob demoRandom.

Definition sessionEvents : list (Env * Event) :=
  [(at_clock 0%N, ClickStart true); (at_clock 0%N, Open);
   (at_clock 0%N, Render)].

Definition startedWorld : World := demoRun initialWorld sessionEvents.

Definition activeWorld : World :=
  demoRun startedWorld [(at_clock 5%N, Message (audioMessage "abc"))].

(* ================================================================== *)
(** ** The PCM codec

    [App.tsx] imports [encode], [decode], [decodeAudioData] and [createBlob]
    from [./utils], which is not among the sources at hand.  The codec is
    therefore modelled from its specification.  Samples are rationals (every
    finite floating-point number is one), a 16-bit integer is a [Z] in
    [-32768, 32767], a byte a [Z] in [0, 255]. *)

Module Codec.
Import QArith_base Qabs.
Local Open Scope Q_scope.











End Codec.

(* ================================================================== *)
(** ** Further notions: schedules, active set, queue, display *)

(** Each chunk of a schedule starts at or after the end of the one before. *)
Fixpoint no_overlap (l : list (Time * Time)) : Prop :=
  match l with
  | [] => True
  | (s, d) :: l' =>
      match l' with
      | [] => True
      | (s', _) :: _ => (s + d <= s')%N /\ no_overlap l'
      end
  end.

(** [started h tr]: [start] has been called on the source [h]. *)
Definition started (h : Handle) (tr : list Effect) : Prop :=
  exists ctx buffer when, In (SourceStart h ctx buffer when) tr.

(** The active set holds distinct sources that have been created and
    started and on which [stop] has not been called; the sources the trace
    mentions have been created. *)
Definition activeSetInv (w : World) : Prop :=
  NoDup (audioSourcesRef (refs w))
  /\ (forall h, In h (audioSourcesRef (refs w)) ->
        h < objects w /\ started h (trace w) /\ ~ In (SourceStop h) (trace w))
  /\ (forall h, In (SourceStop h) (trace w) -> h < objects w).

(** The roles of the entries the queued updates will append. *)
Definition queuedRoles (q : list Update) : list Role :=
  flat_map (fun u => match u with
                     | EntryUpdater r => [r]
                     | EntryComputed e => [role e]
                     | _ => []
                     end) q.


Definition isOpen (e : Event) : bool :=
  match e with
  | Open => true
  | _ => false
  end.


Definition isTrackStop (e : Effect) : bool :=
  match e with
  | TrackStop _ => true
  | _ => false
  end.

(** The text of a transcription field, nothing when the field is absent. *)
Definition fragment (t : option string) : string :=
  match t with
  | Some s => s
  | None => EmptyString
  end.


(** The pending transcription buffers. *)
Definition pending (w : World) : string * string :=
  (currentInputTranscriptionRef (refs w),
   currentOutputTranscriptionRef (refs w)).

(** What the next render shows of the flags. *)
Definition lastActive (q : list Update) (base : bool) : bool :=
  fold_left (fun acc u => match u with SetIsActive b => b | _ => acc end)
            q base.

Definition lastMuted (q : list Update) (base : bool) : bool :=
  fold_left (fun acc u => match u with SetIsMuted b => b | _ => acc end)
            q base.

(** *** TranscriptionList.tsx, line 70: the label of a citation chip,
    [source.title.length > 30 ? source.title.substring(0, 30) + '...'
    : source.title].  The characters of the string stand for the code units
    JavaScript counts. *)
Definition chipLabel (t : string) : string :=
  if (30 <? String.length t)%nat
  then String.substring 0 30 t ++ "..."
  else t.

(** The calls an event can add to the trace of [w]: the start of the source
    created next; a stop of an active source or of that new source; a close
    of an audio context or of the session; a frame sent by the microphone
    callback of a closure that captured [isMuted = false]. *)
Definition callOf (w : World) (e : Event) (c : Effect) : Prop :=
  (exists h ctx b t, c = SourceStart h ctx b t /\ h = objects w)
  \/ (exists h, c = SourceStop h
                /\ (In h (audioSourcesRef (refs w)) \/ h = objects w))
  \/ (exists x, c = ContextClose x)
  \/ (exists s, c = SessionClose s)
  \/ (exists s media cl, c = SendRealtimeInput s media
        /\ callbacks w = Some cl /\ c_isMuted cl = false
        /\ c_processor cl = true
        /\ exists f, e = AudioProcess f).

(** An update of the transcript or of the citations: the only updates
    [onmessage] queues. *)
Definition isContentUpdate (u : Update) : bool :=
  match u with
  | EntryUpdater _ | EntryComputed _ | SourcesUpdater _ => true
  | _ => false
  end.

(** The roles for which a turn completion queues an entry, given the
    pending buffers at that moment. *)
Definition rolesOfTurn (p : string * string) : list Role :=
  ((if truthy (fst p) then [user] else [])
   ++ (if truthy (snd p) then [assistant] else []))%list.

(** A world differs from another one in the scheduler's state only. *)
Definition sameReact (w' w : World) : Prop :=
  ui w' = ui w /\ queue w' = queue w /\ randoms w' = randoms w
  /\ callbacks w' = callbacks w /\ pending w' = pending w.

(** The flags and the error message the next render shows. *)
Definition shownActive (w : World) : bool :=
  lastActive (queue w) (isActive (ui w)).

Definition shownMuted (w : World) : bool :=
  lastMuted (queue w) (isMuted (ui w)).

Definition shownError (w : World) : option string :=
  fold_left (fun acc u => match u with SetError e => e | _ => acc end)
            (queue w) (error (ui w)).

Definition shownStream (w : World) : option StreamId :=
  fold_left (fun acc u => match u with SetAudioStream s => s | _ => acc end)
            (queue w) (audioStream (ui w)).

(** A message that carries nothing [onmessage] acts on. *)
Definition carriesNothing (m : LiveServerMessage) : Prop :=
  carriesAudio m = false /\ interrupted m = false
  /\ inputTranscription m = None /\ outputTranscription m = None
  /\ match groundingChunks m with
     | Some chunks => webChunks chunks = []
     | None => True
     end.

(** The schedule [sch] serves the calls [cs] one by one: same durations, no
    start before the clock of its call. *)
Fixpoint serves (cs sch : list (Time * Time)) : Prop :=
  match cs, sch with
  | [], [] => True
  | (clock, d) :: cs', (s, d') :: sch' =>
      (clock <= s)%N /\ d' = d /\ serves cs' sch'
  | _, _ => False
  end.

(* ================================================================== *)
(** ** AudioVisualizer.tsx: the bars of one frame (lines 34-44)

    Numbers are rationals.  With the canvas of the component (600 by 100) and
    the 128 bins of an analyser with [fftSize = 256], every value computed
    here is a multiple of 1/32 below 2^11, so the floating-point operations
    of the script are exact and agree with the rational ones. *)

Module Visualizer.
Import QArith_base.
Local Open Scope Q_scope.

(** One [ctx.fillRect(x, y, width, height)] with the red component of the
    [fillStyle] set before it. *)
Record Bar := mkBar {
  bar_x : Q;
  bar_y : Q;
  bar_width : Q;
  bar_height : Q;
  bar_red : Q
}.

(** The loop of lines 39-44, from the current [x]. *)
Fixpoint bars (canvasHeight barWidth x : Q) (dataArray : list Z) : list Bar :=
  match dataArray with
  | [] => []
  | byte :: rest =>
      let barHeight := inject_Z byte / 2 in
      mkBar x (canvasHeight - barHeight) barWidth barHeight (barHeight + 100)
      :: bars canvasHeight barWidth (x + (barWidth + 1)) rest
  end.

(** Lines 35-44: [barWidth = (canvas.width / bufferLength) * 2.5], then the
    loop from [x = 0]. *)
Definition draw (canvasWidth canvasHeight : Q) (dataArray : list Z)
  : list Bar :=
  let bufferLength := inject_Z (Z.of_nat (List.length dataArray)) in
  let barWidth := (canvasWidth / bufferLength) * (5 # 2) in
  bars canvasHeight barWidth 0 dataArray.

(** The content of a [Uint8Array]. *)
Definition isByte (b : Z) : Prop := (0 <= b <= 255)%Z.

End Visualizer.

(** The sources on which the trace records a [stop()], in order. *)
Definition stopsOf (tr : list Effect) : list Handle :=
  flat_map (fun e => match e with
                     | SourceStop h => [h]
                     | _ => []
                     end) tr.

(** No source has been stopped twice, and every stopped source had been
    started. *)
Definition stopsInv (w : World) : Prop :=
  NoDup (stopsOf (trace w))
  /\ (forall h, In (SourceStop h) (trace w) -> started h (trace w)).

(* ================================================================== *)
(** * Proofs *)

(** ** Facts on [JsMap] *)

Module JsMapFacts.
Import JsMap.

Lemma keys_set_in k v m :
  In k (keys m) -> keys (set k v m) = keys m.
Proof.
  induction m as [|[k' v'] m IH]; simpl; [tauto|].
  intros H. destruct (String.eqb_spec k k') as [->|Hne]; simpl; [reflexivity|].
  f_equal. apply IH. destruct H as [H|H]; [congruence|exact H].
Qed.

Lemma keys_set_notin k v m :
  ~ In k (keys m) -> set k v m = (m ++ [(k, v)])%list.
Proof.
  induction m as [|[k' v'] m IH]; simpl; [reflexivity|].
  intros H. destruct (String.eqb_spec k k') as [->|Hne].
  - exfalso. apply H. now left.
  - f_equal. apply IH. tauto.
Qed.

Lemma get_set k v k' m :
  get k' (set k v m) = if String.eqb k' k then Some v else get k' m.
Proof.
  induction m as [|[k0 v0] m IH]; simpl.
  - reflexivity.
  - destruct (String.eqb_spec k k0) as [->|Hne]; simpl.
    + destruct (String.eqb_spec k' k0); reflexivity.
    + destruct (String.eqb_spec k' k0) as [->|Hne'].
      * destruct (String.eqb_spec k0 k); [congruence|reflexivity].
      * exact IH.
Qed.

Lemma get_notin k m : ~ In k (keys m) -> get k m = None.
Proof.
  induction m as [|[k0 v0] m IH]; simpl; [reflexivity|].
  intros H. destruct (String.eqb_spec k k0) as [->|Hne]; [tauto|].
  apply IH. tauto.
Qed.

Lemma get_in k v m : get k m = Some v -> In (k, v) m.
Proof.
  induction m as [|[k0 v0] m IH]; simpl; [discriminate|].
  destruct (String.eqb_spec k k0) as [->|Hne].
  - intros [= ->]. now left.
  - intros H. right. now apply IH.
Qed.

Lemma in_get k v m : NoDup (keys m) -> In (k, v) m -> get k m = Some v.
Proof.
  induction m as [|[k0 v0] m IH]; simpl; [tauto|].
  intros Hnd [H|H].
  - injection H as -> ->. now rewrite String.eqb_refl.
  - inversion Hnd as [|? ? Hk Hnd']; subst.
    destruct (String.eqb_spec k k0) as [->|Hne].
    + exfalso. apply Hk. change k0 with (fst (k0, v)). now apply in_map.
    + now apply IH.
Qed.

(** Two maps with the same keys in the same order and the same value at
    every key are the same list. *)
Lemma ext m1 : forall m2,
  NoDup (keys m1) -> keys m1 = keys m2 ->
  (forall k, get k m1 = get k m2) -> m1 = m2.
Proof.
  induction m1 as [|[k v] m1 IH]; intros [|[k2 v2] m2] Hnd Hk Hg;
    simpl in *; try discriminate; [reflexivity|].
  injection Hk as <- Hk. inversion Hnd as [|? ? Hnk Hnd']; subst.
  pose proof (Hg k) as Hgk. rewrite String.eqb_refl in Hgk.
  injection Hgk as <-. f_equal. apply IH; [assumption..|].
  intros k'. specialize (Hg k').
  destruct (String.eqb_spec k' k) as [E|Hne]; [|exact Hg].
  subst k'. rewrite !get_notin; [reflexivity|now rewrite <- Hk|assumption].
Qed.

Lemma NoDup_keys_set k v m : NoDup (keys m) -> NoDup (keys (set k v m)).
Proof.
  intros H. destruct (in_dec string_dec k (keys m)) as [Hin|Hnin].
  - now rewrite keys_set_in.
  - rewrite keys_set_notin by assumption. unfold keys. rewrite map_app.
    simpl. apply NoDup_app; [assumption|repeat constructor; simpl; tauto|].
    intros x Hx [<-|[]]. now apply Hnin.
Qed.

Lemma NoDup_keys_set_all kvs : forall m,
  NoDup (keys m) -> NoDup (keys (set_all kvs m)).
Proof.
  induction kvs as [|[k v] kvs IH]; intros m H; simpl; [exact H|].
  apply IH. now apply NoDup_keys_set.
Qed.

Lemma set_all_app l1 l2 m : set_all (l1 ++ l2) m = set_all l2 (set_all l1 m).
Proof. unfold set_all. apply fold_left_app. Qed.

Lemma keys_set_all kvs : forall m,
  keys (set_all kvs m) = add_keys (map fst kvs) (keys m).
Proof.
  induction kvs as [|[k v] kvs IH]; intros m; simpl; [reflexivity|].
  change (keys (set_all kvs (set k v m)) =
          add_keys (map fst kvs)
            (if in_dec string_dec k (keys m) then keys m
             else keys m ++ [k])%list).
  rewrite IH. f_equal. destruct (in_dec string_dec k (keys m)).
  - now apply keys_set_in.
  - rewrite keys_set_notin by assumption. unfold keys.
    now rewrite map_app.
Qed.

Lemma fresh_for_in acc k : In k acc -> fresh_for acc k = false.
Proof. unfold fresh_for. destruct (in_dec string_dec k acc); tauto. Qed.

Lemma fresh_for_notin acc k : ~ In k acc -> fresh_for acc k = true.
Proof. unfold fresh_for. destruct (in_dec string_dec k acc); tauto. Qed.

Lemma fresh_for_snoc acc k x :
  k <> x -> fresh_for (acc ++ [k]) x = fresh_for acc x.
Proof.
  intros Hne. destruct (in_dec string_dec x acc) as [Hi|Hn].
  - rewrite !fresh_for_in; [reflexivity|assumption|].
    apply in_or_app. now left.
  - rewrite !fresh_for_notin; [reflexivity|assumption|].
    intros H. apply in_app_or in H. destruct H as [H|[H|[]]];
      [contradiction|congruence].
Qed.

Lemma filter_fresh_remove acc k l :
  In k acc ->
  filter (fresh_for acc) (remove string_dec k l) = filter (fresh_for acc) l.
Proof.
  intros Hk. induction l as [|x l IH]; simpl; [reflexivity|].
  destruct (string_dec k x) as [<-|Hne]; simpl.
  - now rewrite (fresh_for_in acc k Hk).
  - now rewrite IH.
Qed.

Lemma filter_fresh_snoc acc k l :
  filter (fresh_for (acc ++ [k])) l =
  filter (fresh_for acc) (remove string_dec k l).
Proof.
  induction l as [|x l IH]; simpl; [reflexivity|].
  destruct (string_dec k x) as [<-|Hne]; simpl.
  - rewrite fresh_for_in; [exact IH|]. apply in_or_app. right. now left.
  - now rewrite IH, fresh_for_snoc.
Qed.

Lemma add_keys_first_occurrences ks : forall acc,
  add_keys ks acc = (acc ++ filter (fresh_for acc) (first_occurrences ks))%list.
Proof.
  induction ks as [|k ks IH]; intros acc; simpl.
  - now rewrite app_nil_r.
  - rewrite IH. destruct (in_dec string_dec k acc) as [Hi|Hn].
    + now rewrite (fresh_for_in acc k Hi), filter_fresh_remove.
    + rewrite (fresh_for_notin acc k Hn), <- app_assoc. simpl.
      now rewrite filter_fresh_snoc.
Qed.

Lemma filter_fresh_nil l : filter (fresh_for []) l = l.
Proof.
  induction l as [|x l IH]; simpl; [reflexivity|]. now rewrite IH.
Qed.

Lemma keys_new_Map kvs :
  keys (new_Map kvs) = first_occurrences (map fst kvs).
Proof.
  unfold new_Map. rewrite keys_set_all, add_keys_first_occurrences. simpl.
  apply filter_fresh_nil.
Qed.

Lemma add_keys_incl ks : forall acc,
  (forall k, In k ks -> In k acc) -> add_keys ks acc = acc.
Proof.
  induction ks as [|k ks IH]; intros acc H; simpl; [reflexivity|].
  destruct (in_dec string_dec k acc) as [Hi|Hn].
  - apply IH. intros k' Hk'. apply H. now right.
  - exfalso. apply Hn, H. now left.
Qed.

Lemma add_keys_In ks : forall acc k,
  In k (add_keys ks acc) <-> In k acc \/ In k ks.
Proof.
  induction ks as [|k0 ks IH]; intros acc k; simpl; [tauto|].
  rewrite IH. destruct (in_dec string_dec k0 acc) as [Hi|Hn].
  - split; [tauto|]. intros [H|[<-|H]]; tauto.
  - rewrite in_app_iff. simpl. tauto.
Qed.

Lemma get_set_all kvs : forall m k,
  get k (set_all kvs m) =
  match lookup_last k kvs with Some v => Some v | None => get k m end.
Proof.
  induction kvs as [|[k0 v0] kvs IH]; intros m k; simpl; [reflexivity|].
  change (get k (set_all kvs (set k0 v0 m)) =
          match match lookup_last k kvs with
                | Some x => Some x
                | None => if String.eqb k k0 then Some v0 else None
                end with
          | Some v => Some v
          | None => get k m
          end).
  rewrite IH, get_set. destruct (lookup_last k kvs); [reflexivity|].
  destruct (String.eqb k k0); reflexivity.
Qed.

Lemma lookup_last_In k kvs : forall v,
  lookup_last k kvs = Some v -> In (k, v) kvs.
Proof.
  induction kvs as [|[k0 v0] kvs IH]; intros v; simpl; [discriminate|].
  destruct (lookup_last k kvs) as [x|].
  - intros [= <-]. right. now apply IH.
  - destruct (String.eqb_spec k k0) as [->|]; [|discriminate].
    intros [= <-]. now left.
Qed.

Lemma lookup_last_None k kvs :
  lookup_last k kvs = None -> ~ In k (map fst kvs).
Proof.
  induction kvs as [|[k0 v0] kvs IH]; simpl; [tauto|].
  destruct (lookup_last k kvs) as [x|]; [discriminate|].
  destruct (String.eqb_spec k k0) as [->|Hne]; [discriminate|].
  intros _ [H|H]; [congruence|]. now apply IH.
Qed.

(** Re-inserting the pairs of a map with distinct keys rebuilds it. *)
Lemma set_all_distinct m : forall acc,
  NoDup (keys m) -> (forall k, In k (keys m) -> ~ In k (keys acc)) ->
  set_all m acc = (acc ++ m)%list.
Proof.
  induction m as [|[k v] m IH]; intros acc Hnd Hdis; simpl.
  - now rewrite app_nil_r.
  - inversion Hnd as [|? ? Hk Hnd']; subst.
    change (set_all m (set k v acc) = (acc ++ (k, v) :: m)%list).
    rewrite keys_set_notin by (apply Hdis; now left).
    rewrite IH; [now rewrite <- app_assoc|assumption|].
    intros k' Hk' Hin. unfold keys in Hin. rewrite map_app in Hin.
    apply in_app_or in Hin. destruct Hin as [Hin|[<-|[]]].
    + apply (Hdis k'); [now right|exact Hin].
    + exact (Hk Hk').
Qed.

Lemma new_Map_distinct m : NoDup (keys m) -> new_Map m = m.
Proof.
  intros H. unfold new_Map. rewrite set_all_distinct; try assumption.
  - reflexivity.
  - intros k _ [].
Qed.

(** Inserting the same pairs a second time changes nothing. *)
Lemma set_all_twice kvs m :
  NoDup (keys m) ->
  set_all kvs (set_all kvs m) = set_all kvs m.
Proof.
  intros Hnd. apply ext.
  - now apply NoDup_keys_set_all, NoDup_keys_set_all.
  - rewrite keys_set_all. apply add_keys_incl. intros k Hk.
    rewrite keys_set_all. apply add_keys_In. now right.
  - intros k. rewrite !get_set_all. destruct (lookup_last k kvs); reflexivity.
Qed.

End JsMapFacts.

(** ** The citation merge *)

Section Merge.
Import JsMap JsMapFacts.

Lemma keys_keyed l : map fst (keyed l) = map uri l.
Proof. unfold keyed. rewrite map_map. reflexivity. Qed.

Lemma keyed_app l1 l2 : keyed (l1 ++ l2) = (keyed l1 ++ keyed l2)%list.
Proof. apply map_app. Qed.

Lemma well_keyed_set v m : well_keyed m -> well_keyed (set (uri v) v m).
Proof.
  induction m as [|[k0 v0] m IH]; intros H k x; simpl.
  - intros [[= <- <-]|[]]. reflexivity.
  - destruct (String.eqb_spec (uri v) k0) as [E|Hne]; simpl.
    + intros [[= <- <-]|Hin]; [now symmetry|]. apply H. now right.
    + intros [[= <- <-]|Hin]; [apply H; now left|].
      apply IH; [|exact Hin]. intros k' v' H'. apply H. now right.
Qed.

Lemma well_keyed_set_all l : forall m,
  well_keyed m -> well_keyed (set_all (keyed l) m).
Proof.
  induction l as [|s l IH]; intros m H; simpl; [exact H|].
  apply IH. now apply well_keyed_set.
Qed.

Lemma keyed_values m : well_keyed m -> keyed (values m) = m.
Proof.
  induction m as [|[k v] m IH]; intros H; simpl; [reflexivity|].
  rewrite <- (H k v) by now left. f_equal. apply IH.
  intros k' v' H'. apply H. now right.
Qed.

Lemma uris_values m : well_keyed m -> map uri (values m) = keys m.
Proof.
  induction m as [|[k v] m IH]; intros H; simpl; [reflexivity|].
  rewrite <- (H k v) by now left. f_equal. apply IH.
  intros k' v' H'. apply H. now right.
Qed.

Lemma well_keyed_nil : well_keyed [].
Proof. intros k v []. Qed.

Lemma NoDup_keys_nil : NoDup (keys []).
Proof. constructor. Qed.

Lemma last_with_uri_lookup u l :
  last_with_uri u l = lookup_last u (keyed l).
Proof.
  unfold last_with_uri. induction l as [|s l IH]; simpl; [reflexivity|].
  rewrite <- IH. clear IH. induction (rev l) as [|x r IHr]; simpl.
  - destruct (String.eqb u (uri s)); reflexivity.
  - destruct (String.eqb u (uri x)); [reflexivity|exact IHr].
Qed.

Lemma first_occurrences_In l : forall k,
  In k (first_occurrences l) <-> In k l.
Proof.
  intros k.
  pose proof (keys_set_all (map (fun x => (x, mkSource x x)) l) []) as H.
  rewrite add_keys_first_occurrences in H. simpl in H.
  rewrite filter_fresh_nil, map_map, map_id in H.
  rewrite <- H, keys_set_all, add_keys_In, map_map, map_id. simpl. tauto.
Qed.

Lemma first_occurrences_NoDup l : NoDup (first_occurrences l).
Proof.
  pose proof (keys_set_all (map (fun x => (x, mkSource x x)) l) []) as H.
  rewrite add_keys_first_occurrences in H. simpl in H.
  rewrite filter_fresh_nil, map_map, map_id in H. rewrite <- H.
  apply NoDup_keys_set_all. constructor.
Qed.

Lemma dedupe_uris l : map uri (dedupe l) = first_occurrences (map uri l).
Proof.
  unfold dedupe. fold (keyed l). rewrite uris_values.
  - now rewrite keys_new_Map, keys_keyed.
  - apply well_keyed_set_all, well_keyed_nil.
Qed.

Lemma dedupe_last l s :
  In s (dedupe l) <-> last_with_uri (uri s) l = Some s.
Proof.
  unfold dedupe. fold (keyed l).
  assert (Hwk : well_keyed (new_Map (keyed l)))
    by apply well_keyed_set_all, well_keyed_nil.
  assert (Hnd : NoDup (keys (new_Map (keyed l))))
    by apply NoDup_keys_set_all, NoDup_keys_nil.
  rewrite last_with_uri_lookup.
  assert (Hget : get (uri s) (new_Map (keyed l))
                 = lookup_last (uri s) (keyed l)).
  { unfold new_Map. rewrite get_set_all. simpl.
    destruct (lookup_last (uri s) (keyed l)); reflexivity. }
  rewrite <- Hget. split.
  - intros Hin. unfold values in Hin. apply in_map_iff in Hin.
    destruct Hin as [[k v] [E Hin]]. simpl in E. subst v.
    rewrite (Hwk _ _ Hin) in Hin. now apply in_get.
  - intros H. apply get_in in H. unfold values.
    change s with (snd (uri s, s)). now apply in_map.
Qed.

Lemma mergeSources_twice newSources prev :
  mergeSources newSources (mergeSources newSources prev) =
  mergeSources newSources prev.
Proof.
  unfold mergeSources, dedupe. fold (keyed (prev ++ newSources)).
  set (Q := new_Map (keyed (prev ++ newSources))).
  fold (keyed (values Q ++ newSources)).
  assert (HQ : Q = set_all (keyed newSources) (new_Map (keyed prev))).
  { unfold Q, new_Map. now rewrite keyed_app, set_all_app. }
  assert (Hwk : well_keyed Q) by apply well_keyed_set_all, well_keyed_nil.
  assert (Hnd : NoDup (keys Q)) by apply NoDup_keys_set_all, NoDup_keys_nil.
  f_equal. unfold new_Map at 1.
  rewrite keyed_app, set_all_app, keyed_values by assumption.
  fold (new_Map Q). rewrite new_Map_distinct by assumption.
  rewrite HQ. apply set_all_twice. apply NoDup_keys_set_all, NoDup_keys_nil.
Qed.

End Merge.

(** C7 (as amended).  The merged citation sequence has exactly one entry for
    each distinct URI of the previous sequence followed by the new sources;
    the entry of a URI carries the content (title) of the LAST occurrence of
    that URI, and it stands at the place of the FIRST occurrence: the URIs of
    the result are the distinct URIs in the order in which they first
    appear. *)
Theorem mergeSources_first_place_last_title
    (newSources prev : list GroundingSource) :
  let merged := mergeSources newSources prev in
  map uri merged = first_occurrences (map uri (prev ++ newSources))
  /\ NoDup (map uri merged)
  /\ (forall u, In u (map uri merged) <-> In u (map uri (prev ++ newSources)))
  /\ (forall s, In s merged <->
                last_with_uri (uri s) (prev ++ newSources) = Some s).
Proof.
  intros merged. unfold merged, mergeSources.
  repeat split.
  - apply dedupe_uris.
  - rewrite dedupe_uris. apply first_occurrences_NoDup.
  - rewrite dedupe_uris. apply first_occurrences_In.
  - rewrite dedupe_uris. apply first_occurrences_In.
  - apply dedupe_last.
  - apply dedupe_last.
Qed.

(** C7, the claim as stated, fails: with A:X and B:Y stored, merging A:Z
    gives [A:Z; B:Y] (A keeps the first place), whereas a place fixed by the
    last occurrence would give [B:Y; A:Z]. *)
Lemma mergeSources_place_is_not_last_occurrence :
  mergeSources [mkSource "Z" "A"] [mkSource "X" "A"; mkSource "Y" "B"]
    = [mkSource "Z" "A"; mkSource "Y" "B"]
  /\ dedupe_keep_last
       ([mkSource "X" "A"; mkSource "Y" "B"] ++ [mkSource "Z" "A"])
    = [mkSource "Y" "B"; mkSource "Z" "A"]
  /\ ~ (forall newSources prev,
          mergeSources newSources prev = dedupe_keep_last (prev ++ newSources)).
Proof.
  split; [reflexivity|]. split; [reflexivity|].
  intros H.
  specialize (H [mkSource "Z" "A"] [mkSource "X" "A"; mkSource "Y" "B"]).
  vm_compute in H. discriminate H.
Qed.

(** ** The playback scheduler *)

Ltac open_world w :=
  let r := fresh "r" in
  destruct w as [? ? r ? ? ? ?]; destruct r; simpl in *.

Section Playback.

Variable decodeAudioData : string -> AudioBuffer.
Variable createBlob : Frame -> string.
Variable randomId : nat -> string.

Lemma fold_emit_stop l : forall w,
  fold_left (fun acc s => emit (SourceStop s) acc) l w =
  mkWorld (ui w) (queue w) (refs w) (trace w ++ map SourceStop l)
          (objects w) (randoms w) (callbacks w).
Proof.
  induction l as [|h l IH]; intros w; simpl.
  - rewrite app_nil_r. now destruct w.
  - rewrite IH. simpl. now rewrite <- app_assoc.
Qed.

Lemma stopAll_eq w :
  stopAll w =
  mkWorld (ui w) (queue w) (refs w)
          (trace w ++ map SourceStop (audioSourcesRef (refs w)))
          (objects w) (randoms w) (callbacks w).
Proof. apply fold_emit_stop. Qed.

Lemma playback_setEntries env r w :
  playback (setEntries randomId env r w) = playback w.
Proof.
  unfold setEntries. destruct (queue w); [destruct (eagerState env)|];
    reflexivity.
Qed.

Lemma playback_handleTranscriptions m w :
  playback (handleTranscriptions m w) = playback w.
Proof.
  unfold handleTranscriptions.
  destruct (inputTranscription m), (outputTranscription m); reflexivity.
Qed.

Lemma playback_handleTurnComplete env w :
  playback (handleTurnComplete randomId env w) = playback w.
Proof.
  unfold handleTurnComplete.
  destruct (truthy (currentInputTranscriptionRef (refs w))).
  - set (w1 := setEntries randomId env user w).
    assert (H1 : playback w1 = playback w) by apply playback_setEntries.
    destruct (truthy (currentOutputTranscriptionRef (refs w1))).
    + rewrite <- H1. rewrite <- (playback_setEntries env assistant w1).
      reflexivity.
    + rewrite <- H1. reflexivity.
  - destruct (truthy (currentOutputTranscriptionRef (refs w))).
    + rewrite <- (playback_setEntries env assistant w). reflexivity.
    + reflexivity.
Qed.

Lemma playback_handleGrounding chunks w :
  playback (handleGrounding chunks w) = playback w.
Proof.
  unfold handleGrounding. destruct (0 <? _)%nat; reflexivity.
Qed.

Lemma playback_afterPlayback env m w :
  playback (afterPlayback randomId env m w) = playback w.
Proof.
  unfold afterPlayback.
  destruct (groundingChunks m); [rewrite playback_handleGrounding|];
    (destruct (turnComplete m); [rewrite playback_handleTurnComplete|]);
    apply playback_handleTranscriptions.
Qed.

Lemma onmessage_split cl env m w :
  onmessage decodeAudioData randomId cl env m w =
  afterPlayback randomId env m
    (let w1 := if carriesAudio m
               then handleAudio decodeAudioData cl env (payload m) w else w in
     if interrupted m then handleInterrupted w1 else w1).
Proof.
  unfold onmessage, afterPlayback, carriesAudio, payload.
  destruct (inlineData m) as [d|]; [destruct (truthy d)|]; reflexivity.
Qed.

Lemma playback_handleAudio cl env data w :
  playback (handleAudio decodeAudioData cl env data w) =
  ((N.max (cursor w) (currentTime env) + duration (decodeAudioData data))%N,
   Set_add (objects w) (audioSourcesRef (refs w)),
   (trace w ++ [SourceStart (objects w) (c_audioContextOut cl)
                            (decodeAudioData data)
                            (N.max (cursor w) (currentTime env))])%list,
   objects w + 2).
Proof. open_world w. reflexivity. Qed.

Lemma playback_handleInterrupted w :
  playback (handleInterrupted w) =
  (0%N, [], (trace w ++ map SourceStop (audioSourcesRef (refs w)))%list,
   objects w).
Proof. unfold handleInterrupted. rewrite stopAll_eq. reflexivity. Qed.

(** One audio message that does not interrupt. *)
Lemma playback_onmessage_audio cl env m w :
  carriesAudio m = true -> interrupted m = false ->
  playback (onmessage decodeAudioData randomId cl env m w) =
  ((N.max (cursor w) (currentTime env)
    + duration (decodeAudioData (payload m)))%N,
   Set_add (objects w) (audioSourcesRef (refs w)),
   (trace w ++ [SourceStart (objects w) (c_audioContextOut cl)
                            (decodeAudioData (payload m))
                            (N.max (cursor w) (currentTime env))])%list,
   objects w + 2).
Proof.
  intros Ha Hi. rewrite onmessage_split, playback_afterPlayback, Ha, Hi.
  apply playback_handleAudio.
Qed.

Lemma cursor_playback w : cursor w = fst (fst (fst (playback w))).
Proof. reflexivity. Qed.

Lemma trace_playback w : trace w = snd (fst (playback w)).
Proof. reflexivity. Qed.

Lemma active_playback w :
  audioSourcesRef (refs w) = snd (fst (fst (playback w))).
Proof. reflexivity. Qed.

Lemma scheduled_app t1 t2 :
  scheduled (t1 ++ t2) = (scheduled t1 ++ scheduled t2)%list.
Proof. unfold scheduled. now rewrite flat_map_app. Qed.

Lemma deliver_schedule cl ms : forall w,
  Forall isChunk ms ->
  scheduled (trace (deliver decodeAudioData randomId cl w ms)) =
    (scheduled (trace w)
     ++ max_schedule (cursor w) (calls decodeAudioData ms))%list
  /\ (cursor w <= cursor (deliver decodeAudioData randomId cl w ms))%N.
Proof.
  induction ms as [|[env m] ms IH]; intros w Hall; simpl.
  - rewrite app_nil_r. split; [reflexivity|lia].
  - inversion Hall as [|? ? [Ha Hi] Hrest]; subst. simpl in Ha, Hi.
    pose proof (playback_onmessage_audio cl env m w Ha Hi) as Hp.
    set (w1 := onmessage decodeAudioData randomId cl env m w) in *.
    destruct (IH w1 Hrest) as [Hs Hc].
    assert (Hc1 : cursor w1 = (N.max (cursor w) (currentTime env)
                   + duration (decodeAudioData (payload m)))%N)
      by (rewrite cursor_playback, Hp; reflexivity).
    assert (Ht1 : trace w1 =
                  (trace w ++ [SourceStart (objects w) (c_audioContextOut cl)
                                 (decodeAudioData (payload m))
                                 (N.max (cursor w) (currentTime env))])%list)
      by (rewrite trace_playback, Hp; reflexivity).
    fold (deliver decodeAudioData randomId cl w1 ms). split.
    + rewrite Hs, Ht1, scheduled_app, Hc1, <- app_assoc. reflexivity.
    + lia.
Qed.

Lemma max_schedule_on_time cs : forall c,
  on_time c cs -> max_schedule c cs = back_to_back c (map snd cs).
Proof.
  induction cs as [|[t d] cs IH]; intros c H; simpl; [reflexivity|].
  destruct H as [Hlt H]. rewrite N.max_l by lia. f_equal. now apply IH.
Qed.

Lemma gapless_back_to_back ds : forall s, gapless (back_to_back s ds).
Proof.
  induction ds as [|d ds IH]; intros s; simpl; [exact I|].
  specialize (IH (s + d)%N). destruct ds as [|d' ds]; simpl in *; [exact I|].
  split; [reflexivity|exact IH].
Qed.

Lemma cursor_stopSession w : cursor (stopSession w) = cursor w.
Proof.
  unfold stopSession. cbv zeta.
  repeat match goal with
  | |- context [closeContext ?c ?x] => destruct c; simpl
  end; rewrite stopAll_eq; simpl;
  destruct (sessionPromiseRef (refs w)); reflexivity.
Qed.

(** Outside a reset, no event moves the cursor back. *)
Lemma cursor_step_monotone w ev :
  resetsCursor (snd ev) = false ->
  (cursor w <= cursor (step decodeAudioData createBlob randomId w ev))%N.
Proof.
  destruct ev as [env e]. simpl. intros Hr.
  destruct e as [g| | | |m| | |f|h|]; simpl in *; try discriminate.
  - destruct (isActive (ui w)); unfold cursor; simpl; lia.
  - destruct (isActive (ui w)); [rewrite cursor_stopSession|]; lia.
  - destruct (callbacks w); unfold cursor; simpl; lia.
  - destruct (callbacks w) as [cl|]; [|lia].
    rewrite onmessage_split, (cursor_playback (afterPlayback randomId _ _ _)).
    rewrite playback_afterPlayback, Hr.
    destruct (carriesAudio m).
    + rewrite playback_handleAudio. unfold cursor. simpl. lia.
    + unfold cursor. simpl. lia.
  - destruct (callbacks w); [|lia]. unfold onerror.
    rewrite cursor_stopSession. unfold cursor. simpl. lia.
  - destruct (callbacks w); unfold cursor; simpl; lia.
  - destruct (callbacks w) as [cl|]; [|lia].
    destruct (c_processor cl); [|lia]. unfold onaudioprocess.
    destruct (c_isMuted cl); unfold cursor; simpl; lia.
  - unfold cursor. simpl. lia.
  - unfold cursor. simpl. lia.
Qed.

(** C1.  A burst of audio chunks is delivered in order to a session whose
    cursor is [cursor w]; the calls after the first are made strictly before
    the predicted end of the chunk scheduled before.  Then every chunk is
    started at max(cursor, output clock) with the cursor advanced by its
    duration ([max_schedule]); the start times are back to back, start[i+1] =
    start[i] + d[i], from max(cursor, clock) of the first call; and the cursor
    does not move back, neither here nor at any event other than a reset
    (a new session or an interruption). *)
Theorem gapless_scheduling cl w e1 m1 rest :
  Forall isChunk ((e1, m1) :: rest) ->
  on_time (N.max (cursor w) (currentTime e1)
           + duration (decodeAudioData (payload m1)))%N
          (calls decodeAudioData rest) ->
  let ms := (e1, m1) :: rest in
  let w' := deliver decodeAudioData randomId cl w ms in
  let s1 := N.max (cursor w) (currentTime e1) in
  scheduled (trace w') =
    (scheduled (trace w)
     ++ max_schedule (cursor w) (calls decodeAudioData ms))%list
  /\ max_schedule (cursor w) (calls decodeAudioData ms)
     = back_to_back s1 (map snd (calls decodeAudioData ms))
  /\ gapless (max_schedule (cursor w) (calls decodeAudioData ms))
  /\ (cursor w <= cursor w')%N
  /\ (forall w0 ev, resetsCursor (snd ev) = false ->
        (cursor w0
         <= cursor (step decodeAudioData createBlob randomId w0 ev))%N).
Proof.
  intros Hall Hon ms w' s1.
  destruct (deliver_schedule cl ms w Hall) as [Hs Hc].
  assert (Hb : max_schedule (cursor w) (calls decodeAudioData ms)
               = back_to_back s1 (map snd (calls decodeAudioData ms))).
  { unfold ms. simpl. f_equal. now apply max_schedule_on_time. }
  repeat split.
  - exact Hs.
  - exact Hb.
  - rewrite Hb. apply gapless_back_to_back.
  - exact Hc.
  - intros w0 ev. apply cursor_step_monotone.
Qed.

(** C2.  A message with the interruption flag leaves the active set empty
    and the cursor at zero; every handle that was active, and the source the
    same message may have started, has been stopped; and the next chunk is
    started at the output clock of its own call. *)
Theorem interruption_reset cl env m w env' m' :
  interrupted m = true -> carriesAudio m' = true ->
  let w1 := onmessage decodeAudioData randomId cl env m w in
  let w2 := onmessage decodeAudioData randomId cl env' m' w1 in
  audioSourcesRef (refs w1) = []
  /\ cursor w1 = 0%N
  /\ (forall h, In h (audioSourcesRef (refs w)) -> In (SourceStop h) (trace w1))
  /\ (carriesAudio m = true -> In (SourceStop (objects w)) (trace w1))
  /\ scheduled (trace w2) =
       (scheduled (trace w1)
        ++ [(currentTime env', duration (decodeAudioData (payload m')))])%list.
Proof.
  intros Hi Ha w1 w2.
  assert (H1 : playback w1 =
               (let w0 := if carriesAudio m
                          then handleAudio decodeAudioData cl env (payload m) w
                          else w in
                (0%N, [],
                 (trace w0 ++ map SourceStop (audioSourcesRef (refs w0)))%list,
                 objects w0))).
  { unfold w1. rewrite onmessage_split, playback_afterPlayback, Hi. cbv zeta.
    apply playback_handleInterrupted. }
  assert (Hact : audioSourcesRef (refs w1) = [])
    by (rewrite active_playback, H1; reflexivity).
  assert (Hcur : cursor w1 = 0%N) by (rewrite cursor_playback, H1; reflexivity).
  assert (Htr : trace w1 =
                (let w0 := if carriesAudio m
                           then handleAudio decodeAudioData cl env (payload m) w
                           else w in
                 trace w0 ++ map SourceStop (audioSourcesRef (refs w0)))%list)
    by (rewrite trace_playback, H1; reflexivity).
  repeat split.
  - exact Hact.
  - exact Hcur.
  - intros h Hh. rewrite Htr. cbv zeta. apply in_or_app. right.
    apply in_map. destruct (carriesAudio m); [|exact Hh].
    rewrite active_playback, playback_handleAudio. simpl.
    unfold Set_add. destruct (existsb _ _); [exact Hh|].
    apply in_or_app. now left.
  - intros Hm. rewrite Htr, Hm. cbv zeta. apply in_or_app. right.
    apply in_map. rewrite active_playback, playback_handleAudio. simpl.
    unfold Set_add.
    destruct (existsb (Nat.eqb (objects w)) (audioSourcesRef (refs w))) eqn:E.
    + apply existsb_exists in E. destruct E as [x [Hx E]].
      apply Nat.eqb_eq in E. now subst x.
    + apply in_or_app. right. now left.
  - unfold w2. rewrite onmessage_split. rewrite trace_playback.
    rewrite playback_afterPlayback, Ha. cbv zeta.
    destruct (interrupted m').
    + rewrite playback_handleInterrupted. simpl.
      rewrite scheduled_app.
      replace (scheduled (map SourceStop _)) with (@nil (Time * Time)).
      * rewrite app_nil_r, scheduled_app. fold (cursor w1). rewrite Hcur.
        simpl. rewrite N.max_0_l. reflexivity.
      * generalize (Set_add (objects w1) (audioSourcesRef (refs w1))).
        intros l. induction l; simpl; auto.
    + rewrite playback_handleAudio. simpl.
      rewrite scheduled_app, Hcur. simpl. rewrite N.max_0_l. reflexivity.
Qed.

End Playback.

Lemma gapless_scheduling_witness :
  scheduled
    (trace (deliver demoDecode demoRandom demoClosure initialWorld
              [(at_clock 5%N, audioMessage "abc");
               (at_clock 6%N, audioMessage "abcd");
               (at_clock 11%N, audioMessage "ab")]))
  = [(5, 3); (8, 4); (12, 2)]%N.
Proof.
  destruct (gapless_scheduling demoDecode demoBlob demoRandom demoClosure
              initialWorld (at_clock 5%N) (audioMessage "abc")
              [(at_clock 6%N, audioMessage "abcd");
               (at_clock 11%N, audioMessage "ab")]) as [H _].
  - repeat constructor.
  - simpl. repeat split; reflexivity.
  - exact H.
Defined.

Lemma interruption_reset_witness :
  let w := deliver demoDecode demoRandom demoClosure initialWorld
             [(at_clock 5%N, audioMessage "abc")] in
  let w1 := onmessage demoDecode demoRandom demoClosure (at_clock 6%N)
              interruptMessage w in
  cursor w = 8%N
  /\ audioSourcesRef (refs w1) = []
  /\ scheduled
       (trace (onmessage demoDecode demoRandom demoClosure (at_clock 7%N)
                 (audioMessage "ab") w1))
     = [(5, 3); (7, 2)]%N.
Proof.
  intros w w1.
  destruct (interruption_reset demoDecode demoRandom demoClosure (at_clock 6%N)
              interruptMessage w (at_clock 7%N) (audioMessage "ab"))
    as [H1 [_ [_ [_ H5]]]].
  - reflexivity.
  - reflexivity.
  - split; [reflexivity|]. split; [exact H1|exact H5].
Defined.

(** ** Transcript entries, mute and teardown *)

Section Session.

Variable decodeAudioData : string -> AudioBuffer.
Variable createBlob : Frame -> string.
Variable randomId : nat -> string.

(** *** Turn completion *)

(** The entries a turn completion leaves after the next render, in a world
    with nothing queued and text pending for both roles: one entry per role,
    user first; the assistant's updater runs in the render, after the
    handler has emptied the buffers, and so does the user's unless React has
    invoked it inside the [setEntries] call. *)
Lemma turn_complete_entries env env' w :
  queue w = [] ->
  truthy (currentInputTranscriptionRef (refs w)) = true ->
  truthy (currentOutputTranscriptionRef (refs w)) = true ->
  entries (ui (render randomId env' (handleTurnComplete randomId env w))) =
  (entries (ui w)
   ++ [mkEntry (randomId (randoms w)) user
               (if eagerState env then currentInputTranscriptionRef (refs w)
                else EmptyString)
               (dateNow (if eagerState env then env else env'));
       mkEntry (randomId (S (randoms w))) assistant EmptyString
               (dateNow env')])%list
  /\ refs (handleTurnComplete randomId env w) =
     set_currentOutput EmptyString (set_currentInput EmptyString (refs w)).
Proof.
  intros Hq Hin Hout. open_world w. subst.
  unfold handleTurnComplete, setEntries. simpl. rewrite Hin.
  destruct (eagerState env); simpl; rewrite Hout; simpl;
    rewrite <- app_assoc; split; reflexivity.
Qed.

(** A turn completion with both buffers empty queues nothing. *)
Lemma turn_complete_empty env w :
  currentInputTranscriptionRef (refs w) = EmptyString ->
  currentOutputTranscriptionRef (refs w) = EmptyString ->
  queue (handleTurnComplete randomId env w) = queue w.
Proof.
  intros Hin Hout. open_world w. subst. reflexivity.
Qed.

(** C3, evaluated.  The user's fragments "Hel" and "lo" and the assistant's
    fragment "Hi" arrive, then the turn completes and React renders.  Two
    entries result, user first; the assistant's text is empty instead of
    "Hi", and the user's text is "Hello" only when React invoked the updater
    inside the [setEntries] call, and empty otherwise. *)
Theorem turn_complete_entry_text_read_after_clear (eager : bool) :
  let w := run decodeAudioData createBlob randomId initialWorld
             (sessionEvents
              ++ [(at_clock 0%N, Message (inputMessage "Hel"));
                  (at_clock 0%N, Message (inputMessage "lo"));
                  (at_clock 0%N, Message (outputMessage "Hi"));
                  (mkEnv 0%N 1000 eager, Message turnCompleteMessage);
                  (at_clock 0%N, Render)]) in
  map (fun e => (role e, text e)) (entries (ui w))
  = [(user, if eager then "Hello" else EmptyString); (assistant, EmptyString)]
  /\ pendingRef user (refs w) = EmptyString
  /\ pendingRef assistant (refs w) = EmptyString.
Proof. destruct eager; repeat split; reflexivity. Qed.

(** *** Mute *)

(** The microphone callback looks at the flag its closure captured, never
    at the React state. *)
Lemma onaudioprocess_captured cl inputData w :
  trace (onaudioprocess createBlob cl inputData w) =
  if c_isMuted cl then trace w
  else (trace w ++ [SendRealtimeInput (c_sessionPromise cl)
                                      (createBlob inputData)])%list.
Proof. unfold onaudioprocess. destruct (c_isMuted cl); reflexivity. Qed.

(** The mute button changes neither the callbacks nor the refs, and queues
    one update of [isMuted]. *)
Lemma toggleMute_only_queues w :
  callbacks (toggleMute w) = callbacks w
  /\ refs (toggleMute w) = refs w
  /\ trace (toggleMute w) = trace w
  /\ queue (toggleMute w)
     = (queue w ++ [SetIsMuted (negb (isMuted (ui w)))])%list.
Proof. repeat split; reflexivity. Qed.

(** C4, evaluated.  The session is started unmuted and opens; the user
    mutes, React renders ([isMuted] is now true, the session is still
    active), and the microphone delivers a frame: the frame is sent. *)
Theorem mute_toggle_does_not_gate_frames (inputData : Frame) :
  let w := run decodeAudioData createBlob randomId initialWorld
             (sessionEvents
              ++ [(at_clock 0%N, ClickMute); (at_clock 0%N, Render)]) in
  let w' := step decodeAudioData createBlob randomId w
              (at_clock 0%N, AudioProcess inputData) in
  isActive (ui w) = true /\ isMuted (ui w) = true
  /\ trace w = []
  /\ trace w' = [SendRealtimeInput 3 (createBlob inputData)]
  /\ visualizerAnalyses (ui w) = false.
Proof. repeat split; reflexivity. Qed.

(** *** Teardown *)

Lemma stopSession_eq w :
  stopSession w =
  mkWorld (ui w) (queue w ++ [SetIsActive false; SetAudioStream None])
          (set_sessionPromise None (set_audioSources [] (refs w)))
          (trace w ++ teardownEffects (refs w))
          (objects w) (randoms w) (callbacks w).
Proof.
  unfold stopSession, stopAll, teardownEffects. cbv zeta.
  open_world w.
  destruct audioContextInRef0, audioContextOutRef0, sessionPromiseRef0;
    simpl; rewrite fold_emit_stop;
    unfold with_refs, emit, set_sessionPromise, set_audioSources; simpl;
    f_equal; repeat (rewrite <- app_assoc; simpl); rewrite ?app_nil_r;
    reflexivity.
Qed.



(** [onclose] queues one update and touches neither refs nor platform. *)
Lemma onclose_only_queues w :
  refs (onclose w) = refs w /\ trace (onclose w) = trace w
  /\ callbacks (onclose w) = callbacks w
  /\ queue (onclose w) = (queue w ++ [SetIsActive false])%list.
Proof. repeat split; reflexivity. Qed.

End Session.



(** C6, evaluated.  In [activeWorld] (stream 0 held, contexts 1 and 2 open,
    source 6 scheduled, session 3 open) the remote side closes the
    connection.  [onclose] only marks the session inactive: nothing is
    released.  The sibling callback [onerror] runs the whole teardown. *)
Theorem remote_close_only_marks_inactive :
  let closed := demoRun activeWorld
                  [(at_clock 9%N, Close); (at_clock 9%N, Render)] in
  let errored := demoRun activeWorld
                   [(at_clock 9%N, Error); (at_clock 9%N, Render)] in
  isActive (ui activeWorld) = true
  /\ isActive (ui closed) = false
  /\ audioStream (ui closed) = Some 0
  /\ refs closed = refs activeWorld
  /\ audioSourcesRef (refs closed) = [6]
  /\ trace closed = trace activeWorld
  /\ trace errored
     = (trace activeWorld
        ++ [ContextClose 1; ContextClose 2; SourceStop 6; SessionClose 3])%list
  /\ audioStream (ui errored) = None
  /\ audioSourcesRef (refs errored) = [].
Proof. repeat split; reflexivity. Qed.

(** ** Citations through the message handler *)

Section Citations.

Variable decodeAudioData : string -> AudioBuffer.
Variable randomId : nat -> string.

Lemma sourcesOf_app q1 q2 base :
  sourcesOf (q1 ++ q2) base = sourcesOf q2 (sourcesOf q1 base).
Proof. unfold sourcesOf. apply fold_left_app. Qed.

Lemma fold_applyUpdate_sources env rf q : forall s n,
  groundingSources (fst (fold_left (applyUpdate randomId env rf) q (s, n)))
  = sourcesOf q (groundingSources s).
Proof.
  induction q as [|u q IH]; intros s n; simpl; [reflexivity|].
  destruct u; simpl; rewrite IH; reflexivity.
Qed.

(** A render shows the queued merges applied in order. *)
Lemma render_sources env w :
  groundingSources (ui (render randomId env w)) = citations w.
Proof. unfold render, citations. simpl. apply fold_applyUpdate_sources. Qed.

Lemma citations_setEntries env r w :
  citations (setEntries randomId env r w) = citations w.
Proof.
  unfold setEntries, citations.
  destruct (queue w) as [|u q] eqn:E; [destruct (eagerState env)|]; simpl.
  - reflexivity.
  - rewrite E. reflexivity.
  - rewrite E, (sourcesOf_app (u :: q)). reflexivity.
Qed.

Lemma citations_with_refs f w : citations (with_refs f w) = citations w.
Proof. reflexivity. Qed.

Lemma citations_handleTurnComplete env w :
  citations (handleTurnComplete randomId env w) = citations w.
Proof.
  unfold handleTurnComplete. cbv zeta. rewrite !citations_with_refs.
  destruct (truthy (currentInputTranscriptionRef (refs w)));
    match goal with
    | |- context [truthy ?x] => destruct (truthy x)
    end; rewrite ?citations_setEntries; reflexivity.
Qed.

Lemma citations_handleTranscriptions m w :
  citations (handleTranscriptions m w) = citations w.
Proof.
  unfold handleTranscriptions.
  destruct (inputTranscription m), (outputTranscription m); reflexivity.
Qed.

Lemma citations_handleAudio cl env data w :
  citations (handleAudio decodeAudioData cl env data w) = citations w.
Proof. reflexivity. Qed.

Lemma citations_handleInterrupted w :
  citations (handleInterrupted w) = citations w.
Proof. unfold handleInterrupted. rewrite stopAll_eq. reflexivity. Qed.

Lemma collectSources_from chunks : forall acc,
  fold_left (fun newSources chunk =>
               match web chunk with
               | Some wb => (newSources ++ [sourceOfWeb wb])%list
               | None => newSources
               end) chunks acc
  = (acc ++ map sourceOfWeb (webChunks chunks))%list.
Proof.
  induction chunks as [|[[wb|]] chunks IH]; intros acc; simpl.
  - now rewrite app_nil_r.
  - rewrite IH, <- app_assoc. reflexivity.
  - apply IH.
Qed.

Lemma collectSources_eq chunks :
  collectSources chunks = map sourceOfWeb (webChunks chunks).
Proof. unfold collectSources. now rewrite collectSources_from. Qed.

Lemma citations_handleGrounding chunks w :
  citations (handleGrounding chunks w) =
  match webChunks chunks with
  | [] => citations w
  | _ :: _ => mergeSources (map sourceOfWeb (webChunks chunks)) (citations w)
  end.
Proof.
  unfold handleGrounding. cbv zeta. rewrite collectSources_eq.
  destruct (webChunks chunks) as [|wb l]; simpl; [reflexivity|].
  unfold citations. simpl. rewrite sourcesOf_app. reflexivity.
Qed.

Lemma citations_afterPlayback env m w :
  citations (afterPlayback randomId env m w) =
  match groundingChunks m with
  | Some chunks =>
      match webChunks chunks with
      | [] => citations w
      | _ :: _ => mergeSources (map sourceOfWeb (webChunks chunks)) (citations w)
      end
  | None => citations w
  end.
Proof.
  unfold afterPlayback. cbv zeta.
  assert (H : citations
                (if turnComplete m
                 then handleTurnComplete randomId env (handleTranscriptions m w)
                 else handleTranscriptions m w)
              = citations w).
  { destruct (turnComplete m); rewrite ?citations_handleTurnComplete;
      apply citations_handleTranscriptions. }
  destruct (groundingChunks m) as [chunks|];
    [rewrite citations_handleGrounding; rewrite H; reflexivity|exact H].
Qed.

Lemma citations_onmessage cl env m w :
  citations (onmessage decodeAudioData randomId cl env m w) =
  match groundingChunks m with
  | Some chunks =>
      match webChunks chunks with
      | [] => citations w
      | _ :: _ => mergeSources (map sourceOfWeb (webChunks chunks)) (citations w)
      end
  | None => citations w
  end.
Proof.
  rewrite onmessage_split, citations_afterPlayback. cbv zeta.
  assert (H : citations
                (if interrupted m
                 then handleInterrupted
                        (if carriesAudio m
                         then handleAudio decodeAudioData cl env (payload m) w
                         else w)
                 else if carriesAudio m
                      then handleAudio decodeAudioData cl env (payload m) w
                      else w)
              = citations w).
  { destruct (interrupted m); rewrite ?citations_handleInterrupted;
      destruct (carriesAudio m); reflexivity. }
  rewrite H. reflexivity.
Qed.

Lemma webChunks_In chunks wb :
  In wb (webChunks chunks) <-> In (mkChunk (Some wb)) chunks.
Proof.
  unfold webChunks. rewrite in_flat_map. split.
  - intros [[[x|]] [Hc Hx]]; simpl in Hx; [|contradiction].
    destruct Hx as [->|[]]. exact Hc.
  - intros H. exists (mkChunk (Some wb)). split; [exact H|now left].
Qed.

Lemma webChunks_app c1 c2 :
  webChunks (c1 ++ c2) = (webChunks c1 ++ webChunks c2)%list.
Proof. unfold webChunks. apply flat_map_app. Qed.

Lemma find_skip {A} (f : A -> bool) a b :
  (forall x, In x a -> f x = false) -> find f (a ++ b) = find f b.
Proof.
  induction a as [|x a IH]; intros H; simpl; [reflexivity|].
  rewrite (H x) by now left. apply IH. intros y Hy. apply H. now right.
Qed.

Lemma last_with_uri_last l1 s l2 :
  (forall s', In s' l2 -> uri s' <> uri s) ->
  last_with_uri (uri s) (l1 ++ s :: l2) = Some s.
Proof.
  intros H. unfold last_with_uri.
  rewrite rev_app_distr. simpl. rewrite <- app_assoc. rewrite find_skip.
  - simpl. now rewrite String.eqb_refl.
  - intros x Hx. apply in_rev in Hx. apply String.eqb_neq.
    intros E. apply (H x Hx). now symmetry.
Qed.

Lemma last_with_uri_In u l s : last_with_uri u l = Some s -> In s l.
Proof.
  unfold last_with_uri. intros H. apply find_some in H.
  apply in_rev. tauto.
Qed.

(** C8.  Merging the same source list twice in succession gives what
    merging it once gives: for the updater of [setGroundingSources], and for
    the citation sequence rendered after the same message has been handled
    twice.  Merging [A:X, B:Y] twice gives the two entries that merging once
    gives, and merging [A:Z] afterwards sets the title of A to "Z" without a
    second A and without losing B. *)
Theorem merge_idempotent :
  (forall newSources prev,
     mergeSources newSources (mergeSources newSources prev)
     = mergeSources newSources prev)
  /\ (forall cl e1 e2 e3 m w,
        groundingSources
          (ui (render randomId e3
                 (onmessage decodeAudioData randomId cl e2 m
                    (onmessage decodeAudioData randomId cl e1 m w))))
        = groundingSources
            (ui (render randomId e3
                   (onmessage decodeAudioData randomId cl e1 m w))))
  /\ (let AB := [mkSource "X" "A"; mkSource "Y" "B"] in
      mergeSources AB [] = AB
      /\ mergeSources AB (mergeSources AB []) = AB
      /\ mergeSources [mkSource "Z" "A"] (mergeSources AB (mergeSources AB []))
         = [mkSource "Z" "A"; mkSource "Y" "B"]).
Proof.
  split; [exact mergeSources_twice|]. split.
  - intros cl e1 e2 e3 m w. rewrite !render_sources, !citations_onmessage.
    destruct (groundingChunks m) as [chunks|]; [|reflexivity].
    destruct (webChunks chunks); [reflexivity|apply mergeSources_twice].
  - repeat split; reflexivity.
Qed.

(** C10.  For a message with grounding chunks: the new sources are the web
    chunks, in order, a missing or empty title replaced by "Untitled
    Source" and the URI kept; the citation sequence of the next render is the
    merge of these into the previous one, and is the previous one when no
    chunk has a web field; every entry of it comes from the previous sequence
    or from a web chunk of the message; and a web chunk that no later web
    chunk of the message repeats the URI of is in it. *)
Theorem grounding_chunks_filtered cl env env' m w chunks :
  groundingChunks m = Some chunks ->
  let prev := groundingSources (ui (render randomId env' w)) in
  let next := groundingSources
                (ui (render randomId env'
                       (onmessage decodeAudioData randomId cl env m w))) in
  collectSources chunks = map sourceOfWeb (webChunks chunks)
  /\ next = match webChunks chunks with
            | [] => prev
            | _ :: _ => mergeSources (map sourceOfWeb (webChunks chunks)) prev
            end
  /\ ((forall chunk, In chunk chunks -> web chunk = None) -> next = prev)
  /\ (forall s, In s next ->
        In s prev
        \/ exists wb, In (mkChunk (Some wb)) chunks /\ s = sourceOfWeb wb)
  /\ (forall wb, web_title wb = None \/ web_title wb = Some EmptyString ->
        sourceOfWeb wb = mkSource "Untitled Source" (web_uri wb))
  /\ (forall wb t, web_title wb = Some t -> t <> EmptyString ->
        sourceOfWeb wb = mkSource t (web_uri wb))
  /\ (forall pre wb post,
        chunks = (pre ++ mkChunk (Some wb) :: post)%list ->
        (forall wb', In wb' (webChunks post) -> web_uri wb' <> web_uri wb) ->
        In (sourceOfWeb wb) next).
Proof.
  intros Hm prev next.
  assert (Hnext : next = match webChunks chunks with
                         | [] => prev
                         | _ :: _ =>
                             mergeSources (map sourceOfWeb (webChunks chunks)) prev
                         end).
  { unfold next, prev. rewrite !render_sources, citations_onmessage, Hm.
    reflexivity. }
  split; [apply collectSources_eq|]. split; [exact Hnext|]. split; [|split].
  - intros Hnone. rewrite Hnext.
    destruct (webChunks chunks) as [|wb l] eqn:E; [reflexivity|].
    assert (Hin : In wb (webChunks chunks)) by (rewrite E; now left).
    apply webChunks_In in Hin. specialize (Hnone _ Hin). discriminate.
  - intros s Hs. rewrite Hnext in Hs.
    destruct (webChunks chunks) as [|wb0 l] eqn:E; [now left|].
    unfold mergeSources in Hs. apply dedupe_last, last_with_uri_In in Hs.
    apply in_app_or in Hs. destruct Hs as [Hs|Hs]; [now left|]. right.
    apply in_map_iff in Hs. destruct Hs as [wb [<- Hwb]]. exists wb.
    split; [|reflexivity]. apply webChunks_In. now rewrite E.
  - split; [|split].
    + intros wb [H|H]; unfold sourceOfWeb; rewrite H; reflexivity.
    + intros wb t H Ht. unfold sourceOfWeb. rewrite H.
      destruct t; [contradiction|reflexivity].
    + intros pre wb post Hc Hlast. rewrite Hnext.
      assert (Hw : webChunks chunks
                   = (webChunks pre ++ wb :: webChunks post)%list)
        by (rewrite Hc, webChunks_app; reflexivity).
      rewrite Hw. destruct (webChunks pre ++ wb :: webChunks post)%list eqn:E;
        [destruct (webChunks pre); discriminate|].
      rewrite <- E. unfold mergeSources. apply dedupe_last.
      rewrite map_app, app_assoc. simpl.
      change (web_uri wb) with (uri (sourceOfWeb wb)) at 1.
      apply last_with_uri_last. intros s' Hs'.
      apply in_map_iff in Hs'. destruct Hs' as [wb' [<- Hwb']].
      simpl. now apply Hlast.
Qed.

End Citations.

Lemma grounding_chunks_filtered_witness :
  groundingSources
    (ui (render demoRandom (at_clock 0%N)
           (onmessage demoDecode demoRandom demoClosure (at_clock 0%N)
              (groundingMessage
                 [mkChunk None;
                  mkChunk (Some (mkWeb (Some "News") "https://a.example"));
                  mkChunk (Some (mkWeb None "https://b.example"));
                  mkChunk None;
                  mkChunk (Some (mkWeb (Some EmptyString) "https://c.example"))])
              startedWorld)))
  = [mkSource "News" "https://a.example";
     mkSource "Untitled Source" "https://b.example";
     mkSource "Untitled Source" "https://c.example"].
Proof.
  destruct (grounding_chunks_filtered demoDecode demoRandom demoClosure
              (at_clock 0%N) (at_clock 0%N)
              (groundingMessage
                 [mkChunk None;
                  mkChunk (Some (mkWeb (Some "News") "https://a.example"));
                  mkChunk (Some (mkWeb None "https://b.example"));
                  mkChunk None;
                  mkChunk (Some (mkWeb (Some EmptyString) "https://c.example"))])
              startedWorld _ eq_refl) as [_ [H _]].
  exact H.
Defined.

(** ** The PCM codec *)

Section CodecProofs.
Import QArith_base Qabs Codec.
Local Open Scope Q_scope.












End CodecProofs.

(* ================================================================== *)
(** * Further properties of the code *)

(** ** The citation merge, continued *)

Section MergeMore.
Import JsMap JsMapFacts.

Lemma first_occurrences_distinct l : NoDup l -> first_occurrences l = l.
Proof.
  induction l as [|k l IH]; intros H; simpl; [reflexivity|].
  inversion H as [|? ? Hk Hl]; subst. rewrite (IH Hl).
  f_equal. now apply notin_remove.
Qed.

Lemma add_keys_app a b : forall acc,
  add_keys (a ++ b) acc = add_keys b (add_keys a acc).
Proof.
  induction a as [|k a IH]; intros acc; simpl; [reflexivity|]. apply IH.
Qed.

Lemma first_occurrences_app a b :
  NoDup a ->
  first_occurrences (a ++ b)
  = (a ++ filter (fresh_for a) (first_occurrences b))%list.
Proof.
  intros Ha.
  pose proof (add_keys_first_occurrences (a ++ b) []) as H1. simpl in H1.
  rewrite filter_fresh_nil in H1. rewrite <- H1, add_keys_app.
  pose proof (add_keys_first_occurrences a []) as H2. simpl in H2.
  rewrite filter_fresh_nil, (first_occurrences_distinct a Ha) in H2.
  rewrite H2. apply add_keys_first_occurrences.
Qed.

Lemma keys_keyed_uris l : keys (keyed l) = map uri l.
Proof. apply keys_keyed. Qed.

Lemma values_keyed l : values (keyed l) = l.
Proof.
  unfold values, keyed. rewrite map_map. simpl. apply map_id.
Qed.

Lemma dedupe_distinct l : NoDup (map uri l) -> dedupe l = l.
Proof.
  intros H. unfold dedupe. fold (keyed l).
  rewrite new_Map_distinct by (now rewrite keys_keyed_uris).
  apply values_keyed.
Qed.

Lemma dedupe_NoDup l : NoDup (map uri (dedupe l)).
Proof. rewrite dedupe_uris. apply first_occurrences_NoDup. Qed.

Lemma length_set k v m : List.length (set k v m) <= S (List.length m).
Proof.
  induction m as [|[k' v'] m IH]; simpl; [lia|].
  destruct (String.eqb k k'); simpl; lia.
Qed.

Lemma length_set_all kvs : forall m,
  List.length (set_all kvs m) <= List.length m + List.length kvs.
Proof.
  induction kvs as [|[k v] kvs IH]; intros m; simpl; [lia|].
  change (List.length (set_all kvs (set k v m))
          <= List.length m + S (List.length kvs)).
  pose proof (IH (set k v m)). pose proof (length_set k v m). lia.
Qed.

Lemma length_dedupe l : List.length (dedupe l) <= List.length l.
Proof.
  unfold dedupe, values, new_Map. rewrite length_map.
  pose proof (length_set_all (map (fun s => (uri s, s)) l) []) as H.
  rewrite length_map in H. simpl in H. exact H.
Qed.

(** X1.
    Deduplication leaves a list of distinct URIs as it is, is idempotent,
    and never makes a list longer; merging sources whose URIs are all new
    and distinct appends them, in order, to the previous sequence. *)
Theorem dedupe_distinct_idempotent :
  (forall l, NoDup (map uri l) -> dedupe l = l)
  /\ (forall l, dedupe (dedupe l) = dedupe l)
  /\ (forall l, List.length (dedupe l) <= List.length l)
  /\ (forall newSources prev,
        NoDup (map uri (prev ++ newSources)) ->
        mergeSources newSources prev = (prev ++ newSources)%list).
Proof.
  split; [exact dedupe_distinct|]. split; [|split].
  - intros l. apply dedupe_distinct, dedupe_NoDup.
  - exact length_dedupe.
  - intros ns prev H. unfold mergeSources. now apply dedupe_distinct.
Qed.

Lemma NoDup_split_notin (u : string) (l1 l2 : list string) :
  NoDup (l1 ++ u :: l2) -> ~ In u l2.
Proof.
  intros H Hin. apply NoDup_remove_2 in H. apply H.
  apply in_or_app. now right.
Qed.

(** X2.
    A merge keeps every entry of a duplicate-free sequence at its place: the
    URIs of the result are the previous URIs, in their order, followed by
    URIs that are new; an entry whose URI is not among the new sources is
    kept as it is; and every entry of the result is a previous entry or a
    new source. *)
Theorem merge_keeps_places newSources prev :
  NoDup (map uri prev) ->
  let merged := mergeSources newSources prev in
  (exists added,
     map uri merged = (map uri prev ++ added)%list
     /\ (forall u, In u added <->
                   In u (map uri newSources) /\ ~ In u (map uri prev)))
  /\ (forall s, In s prev -> ~ In (uri s) (map uri newSources) ->
        In s merged)
  /\ (forall s, In s merged -> In s prev \/ In s newSources).
Proof.
  intros Hnd merged. unfold merged, mergeSources. split; [|split].
  - exists (filter (fresh_for (map uri prev))
                   (first_occurrences (map uri newSources))).
    split.
    + rewrite dedupe_uris, map_app. now apply first_occurrences_app.
    + intros u. rewrite filter_In, first_occurrences_In. unfold fresh_for.
      destruct (in_dec string_dec u (map uri prev)); split; intros [H1 H2];
        try discriminate; tauto.
  - intros s Hs Hnew. apply dedupe_last.
    apply in_split in Hs. destruct Hs as [l1 [l2 ->]].
    rewrite <- app_assoc. simpl. apply last_with_uri_last.
    intros s' Hs' E. apply in_app_or in Hs'. destruct Hs' as [Hs'|Hs'].
    + rewrite map_app in Hnd. simpl in Hnd.
      apply NoDup_split_notin in Hnd. apply Hnd. rewrite <- E.
      now apply in_map.
    + apply Hnew. rewrite <- E. now apply in_map.
  - intros s Hs. apply dedupe_last in Hs. unfold last_with_uri in Hs.
    apply find_some in Hs. destruct Hs as [Hs _]. apply in_rev in Hs.
    now apply in_app_or.
Qed.

End MergeMore.

Lemma merge_keeps_places_witness :
  mergeSources [mkSource "Z" "A"; mkSource "W" "C"]
               [mkSource "X" "A"; mkSource "Y" "B"]
  = [mkSource "Z" "A"; mkSource "Y" "B"; mkSource "W" "C"]
  /\ In (mkSource "Y" "B")
        (mergeSources [mkSource "Z" "A"; mkSource "W" "C"]
                      [mkSource "X" "A"; mkSource "Y" "B"]).
Proof.
  split; [reflexivity|].
  apply (merge_keeps_places [mkSource "Z" "A"; mkSource "W" "C"]
                            [mkSource "X" "A"; mkSource "Y" "B"]).
  - repeat constructor; simpl; intuition discriminate.
  - simpl. tauto.
  - simpl. intuition discriminate.
Defined.

(** ** What the events do to the scheduler's state *)

Section Events.

Variable decodeAudioData : string -> AudioBuffer.
Variable createBlob : Frame -> string.
Variable randomId : nat -> string.

Lemma playback_stopSession w :
  playback (stopSession w) =
  (cursor w, [], (trace w ++ teardownEffects (refs w))%list, objects w).
Proof. rewrite stopSession_eq. reflexivity. Qed.

Lemma playback_onerror w :
  playback (onerror w) =
  (cursor w, [], (trace w ++ teardownEffects (refs w))%list, objects w).
Proof. unfold onerror. rewrite playback_stopSession. reflexivity. Qed.

Lemma playback_startSession granted w :
  playback (startSession granted w) =
  if granted
  then (0%N, audioSourcesRef (refs w), trace w, objects w + 4)
  else playback w.
Proof. destruct granted; reflexivity. Qed.

(** The playback state after a message, from the state before it. *)
Lemma playback_onmessage cl env m w :
  playback (onmessage decodeAudioData randomId cl env m w) =
  let w1 := if carriesAudio m
            then handleAudio decodeAudioData cl env (payload m) w else w in
  if interrupted m
  then (0%N, [],
        (trace w1 ++ map SourceStop (audioSourcesRef (refs w1)))%list,
        objects w1)
  else playback w1.
Proof.
  rewrite onmessage_split, playback_afterPlayback. cbv zeta.
  destruct (interrupted m); [apply playback_handleInterrupted|reflexivity].
Qed.

Lemma In_teardownEffects e r :
  In e (teardownEffects r) ->
  (exists c, e = ContextClose c)
  \/ (exists h, e = SourceStop h /\ In h (audioSourcesRef r))
  \/ (exists s, e = SessionClose s).
Proof.
  unfold teardownEffects. intros H.
  repeat (apply in_app_or in H; destruct H as [H|H]).
  - destruct (audioContextInRef r) as [c|]; simpl in H;
      [destruct H as [<-|[]]; left; now exists c|contradiction].
  - destruct (audioContextOutRef r) as [c|]; simpl in H;
      [destruct H as [<-|[]]; left; now exists c|contradiction].
  - apply in_map_iff in H. destruct H as [h [<- Hh]]. right. left.
    now exists h.
  - destruct (sessionPromiseRef r) as [s|]; simpl in H;
      [destruct H as [<-|[]]; right; right; now exists s|contradiction].
Qed.

(** *** The trace only grows, and by which calls *)

(** The calls one event adds to the trace. *)
Lemma step_trace w ev :
  exists added,
    trace (step decodeAudioData createBlob randomId w ev)
    = (trace w ++ added)%list
    /\ (forall c, In c added -> callOf w (snd ev) c).
Proof.
  destruct ev as [env e]. cbn [snd].
  assert (Hnil : exists added : list Effect,
            trace w = (trace w ++ added)%list
            /\ (forall c, In c added -> callOf w e c)).
  { exists []. rewrite app_nil_r. split; [reflexivity|intros ? []]. }
  assert (Hstop : exists added,
            (trace w ++ teardownEffects (refs w))%list = (trace w ++ added)%list
            /\ (forall c, In c added -> callOf w e c)).
  { exists (teardownEffects (refs w)). split; [reflexivity|].
    intros e0 He0. apply In_teardownEffects in He0. unfold callOf.
    destruct He0 as [[c ->]|[[h [-> Hh]]|[s ->]]].
    - right. right. left. now exists c.
    - right. left. exists h. tauto.
    - right. right. right. left. now exists s. }
  destruct e as [g| | | |m| | |f|h|]; simpl.
  - destruct (isActive (ui w)); [exact Hnil|].
    destruct g; exact Hnil.
  - destruct (isActive (ui w)); exact Hnil.
  - destruct (isActive (ui w)); [|exact Hnil].
    rewrite trace_playback, playback_stopSession. exact Hstop.
  - destruct (callbacks w); exact Hnil.
  - destruct (callbacks w) as [cl|]; [|exact Hnil].
    rewrite trace_playback, playback_onmessage. cbv zeta. unfold callOf.
    destruct (carriesAudio m), (interrupted m); cbn [fst snd].
    + rewrite trace_playback, active_playback, playback_handleAudio.
      cbn [fst snd]. rewrite <- app_assoc. eexists. split; [reflexivity|].
      intros e0 [<-|He0].
      * left. now exists (objects w), (c_audioContextOut cl),
          (decodeAudioData (payload m)),
          (N.max (cursor w) (currentTime env)).
      * right. left. apply in_map_iff in He0. destruct He0 as [h [<- Hh]].
        exists h. split; [reflexivity|]. unfold Set_add in Hh.
        destruct (existsb _ _); [now left|].
        apply in_app_or in Hh. destruct Hh as [Hh|[<-|[]]]; tauto.
    + rewrite trace_playback, playback_handleAudio. cbn [fst snd].
      eexists. split; [reflexivity|]. intros e0 [<-|[]]. left.
      now exists (objects w), (c_audioContextOut cl),
        (decodeAudioData (payload m)), (N.max (cursor w) (currentTime env)).
    + eexists. split; [reflexivity|]. intros e0 He0. right. left.
      apply in_map_iff in He0. destruct He0 as [h [<- Hh]]. exists h. tauto.
    + exact Hnil.
  - destruct (callbacks w); [|exact Hnil].
    rewrite trace_playback, playback_onerror. exact Hstop.
  - destruct (callbacks w); exact Hnil.
  - destruct (callbacks w) as [cl|] eqn:Ecb; [|exact Hnil].
    destruct (c_processor cl) eqn:Ep; [|exact Hnil]. unfold onaudioprocess.
    destruct (c_isMuted cl) eqn:Em; [exact Hnil|]. simpl.
    eexists. split; [reflexivity|]. intros e0 [<-|[]]. unfold callOf.
    right. right. right. right.
    exists (c_sessionPromise cl), (createBlob f), cl.
    repeat split; try assumption. now exists f.
  - exact Hnil.
  - exact Hnil.
Qed.

End Events.

(** ** What the message handler queues, and what a render makes of it *)

Section Queue.

Variable decodeAudioData : string -> AudioBuffer.
Variable createBlob : Frame -> string.
Variable randomId : nat -> string.

Lemma sameReact_handleAudio cl env data w :
  sameReact (handleAudio decodeAudioData cl env data w) w.
Proof. repeat split. Qed.

Lemma sameReact_handleInterrupted w : sameReact (handleInterrupted w) w.
Proof. unfold handleInterrupted. rewrite stopAll_eq. repeat split. Qed.

Lemma sameReact_playbackPart cl env m w :
  sameReact
    (let w1 := if carriesAudio m
               then handleAudio decodeAudioData cl env (payload m) w else w in
     if interrupted m then handleInterrupted w1 else w1) w.
Proof.
  cbv zeta. destruct (carriesAudio m), (interrupted m).
  - destruct (sameReact_handleInterrupted
                (handleAudio decodeAudioData cl env (payload m) w))
      as [H1 [H2 [H3 [H4 H5]]]].
    repeat split; assumption.
  - apply sameReact_handleAudio.
  - apply sameReact_handleInterrupted.
  - repeat split.
Qed.

Lemma pending_handleTranscriptions m w :
  pending (handleTranscriptions m w) =
  (fst (pending w) ++ fragment (inputTranscription m),
   snd (pending w) ++ fragment (outputTranscription m)).
Proof.
  assert (Hnil : forall s, s ++ EmptyString = s).
  { induction s as [|c s IH]; simpl; [reflexivity|now rewrite IH]. }
  unfold handleTranscriptions.
  destruct (inputTranscription m), (outputTranscription m); simpl;
    unfold pending; simpl; rewrite ?Hnil; reflexivity.
Qed.

Lemma react_handleTranscriptions m w :
  ui (handleTranscriptions m w) = ui w
  /\ queue (handleTranscriptions m w) = queue w
  /\ randoms (handleTranscriptions m w) = randoms w
  /\ callbacks (handleTranscriptions m w) = callbacks w.
Proof.
  unfold handleTranscriptions.
  destruct (inputTranscription m), (outputTranscription m); repeat split.
Qed.

Lemma react_setEntries env r w :
  ui (setEntries randomId env r w) = ui w
  /\ callbacks (setEntries randomId env r w) = callbacks w
  /\ refs (setEntries randomId env r w) = refs w
  /\ exists u, queue (setEntries randomId env r w) = (queue w ++ [u])%list
               /\ queuedRoles [u] = [r] /\ isContentUpdate u = true.
Proof.
  unfold setEntries.
  destruct (queue w) as [|u0 q] eqn:E; [destruct (eagerState env)|];
    repeat split; simpl; try rewrite E; eexists; split;
    try reflexivity; split; reflexivity.
Qed.

Lemma react_handleTurnComplete env w :
  ui (handleTurnComplete randomId env w) = ui w
  /\ callbacks (handleTurnComplete randomId env w) = callbacks w
  /\ pending (handleTurnComplete randomId env w) = (EmptyString, EmptyString)
  /\ exists us, queue (handleTurnComplete randomId env w)
                = (queue w ++ us)%list
                /\ queuedRoles us = rolesOfTurn (pending w)
                /\ forallb isContentUpdate us = true.
Proof.
  unfold handleTurnComplete, rolesOfTurn, pending. cbv zeta. cbn [fst snd].
  destruct (truthy (currentInputTranscriptionRef (refs w))).
  - destruct (react_setEntries env user w) as [U1 [C1 [R1 [u1 [Q1 [L1 K1]]]]]].
    set (w1 := setEntries randomId env user w) in *. rewrite R1.
    destruct (truthy (currentOutputTranscriptionRef (refs w))).
    + destruct (react_setEntries env assistant w1)
        as [U2 [C2 [R2 [u2 [Q2 [L2 K2]]]]]].
      repeat split; simpl; try congruence.
      exists [u1; u2]. split; [|split].
      * rewrite Q2, Q1, <- app_assoc. reflexivity.
      * change [u1; u2] with ([u1] ++ [u2])%list. unfold queuedRoles in *.
        rewrite flat_map_app, L1, L2. reflexivity.
      * simpl. now rewrite K1, K2.
    + repeat split; simpl; try congruence.
      exists [u1]. split; [exact Q1|]. split; [exact L1|].
      simpl. now rewrite K1.
  - destruct (truthy (currentOutputTranscriptionRef (refs w))).
    + destruct (react_setEntries env assistant w)
        as [U2 [C2 [R2 [u2 [Q2 [L2 K2]]]]]].
      repeat split; simpl; try congruence.
      exists [u2]. split; [exact Q2|]. split; [exact L2|].
      simpl. now rewrite K2.
    + repeat split. exists []. rewrite app_nil_r. repeat split.
Qed.

Lemma react_handleGrounding chunks w :
  ui (handleGrounding chunks w) = ui w
  /\ callbacks (handleGrounding chunks w) = callbacks w
  /\ pending (handleGrounding chunks w) = pending w
  /\ exists us, queue (handleGrounding chunks w) = (queue w ++ us)%list
                /\ queuedRoles us = [] /\ forallb isContentUpdate us = true.
Proof.
  unfold handleGrounding. cbv zeta.
  destruct (0 <? List.length (collectSources chunks))%nat; repeat split.
  - eexists. split; [reflexivity|]. split; reflexivity.
  - exists []. rewrite app_nil_r. repeat split.
Qed.

(** What one message does outside the scheduler: the React state and the
    callbacks are untouched, the fragments are appended to the buffers, a
    turn completion empties them, and the queue grows by entry updates for
    the roles with pending text and by citation merges. *)
Lemma react_onmessage cl env m w :
  let w' := onmessage decodeAudioData randomId cl env m w in
  ui w' = ui w
  /\ callbacks w' = callbacks w
  /\ pending w' =
     (if turnComplete m then (EmptyString, EmptyString)
      else (fst (pending w) ++ fragment (inputTranscription m),
            snd (pending w) ++ fragment (outputTranscription m)))
  /\ exists us, queue w' = (queue w ++ us)%list
       /\ queuedRoles us =
          (if turnComplete m
           then rolesOfTurn
                  (fst (pending w) ++ fragment (inputTranscription m),
                   snd (pending w) ++ fragment (outputTranscription m))
           else [])
       /\ forallb isContentUpdate us = true.
Proof.
  intros w'. unfold w'. rewrite onmessage_split.
  destruct (sameReact_playbackPart cl env m w) as [U0 [Q0 [_ [C0 P0]]]].
  set (w0 := (let w1 := if carriesAudio m
                        then handleAudio decodeAudioData cl env (payload m) w
                        else w in
              if interrupted m then handleInterrupted w1 else w1)) in *.
  unfold afterPlayback. cbv zeta.
  destruct (react_handleTranscriptions m w0) as [U1 [Q1 [_ C1]]].
  pose proof (pending_handleTranscriptions m w0) as P1. rewrite P0 in P1.
  set (w1 := handleTranscriptions m w0) in *.
  assert (H2 : let w2 := if turnComplete m
                         then handleTurnComplete randomId env w1 else w1 in
          ui w2 = ui w /\ callbacks w2 = callbacks w
          /\ pending w2 =
             (if turnComplete m then (EmptyString, EmptyString)
              else (fst (pending w) ++ fragment (inputTranscription m),
                    snd (pending w) ++ fragment (outputTranscription m)))
          /\ exists us, queue w2 = (queue w ++ us)%list
               /\ queuedRoles us =
                  (if turnComplete m
                   then rolesOfTurn
                          (fst (pending w) ++ fragment (inputTranscription m),
                           snd (pending w) ++ fragment (outputTranscription m))
                   else [])
               /\ forallb isContentUpdate us = true).
  { cbv zeta. destruct (turnComplete m).
    - destruct (react_handleTurnComplete env w1)
        as [U2 [C2 [P2 [us [Q2 [L2 K2]]]]]].
      repeat split; try congruence.
      exists us. rewrite Q2, Q1, Q0, L2, P1. repeat split. exact K2.
    - repeat split; try congruence.
      exists []. rewrite app_nil_r. repeat split. congruence. }
  cbv zeta in H2.
  set (w2 := if turnComplete m then handleTurnComplete randomId env w1
             else w1) in *.
  destruct H2 as [U2 [C2 [P2 [us [Q2 [L2 K2]]]]]].
  destruct (groundingChunks m) as [chunks|].
  - destruct (react_handleGrounding chunks w2)
      as [U3 [C3 [P3 [us3 [Q3 [L3 K3]]]]]].
    repeat split; try congruence.
    exists (us ++ us3)%list. split; [|split].
    + rewrite Q3, Q2, <- app_assoc. reflexivity.
    + unfold queuedRoles in *. rewrite flat_map_app, L2, L3, app_nil_r.
      reflexivity.
    + rewrite forallb_app, K2, K3. reflexivity.
  - repeat split; try assumption. exists us. repeat split; assumption.
Qed.

End Queue.

(** ** Rendering *)

Section Rendering.

Variable decodeAudioData : string -> AudioBuffer.
Variable createBlob : Frame -> string.
Variable randomId : nat -> string.

Lemma fold_applyUpdate_flags env rf q : forall s n,
  let r := fst (fold_left (applyUpdate randomId env rf) q (s, n)) in
  isActive r = lastActive q (isActive s)
  /\ isMuted r = lastMuted q (isMuted s)
  /\ error r
     = fold_left (fun acc u => match u with SetError e => e | _ => acc end)
                 q (error s)
  /\ audioStream r
     = fold_left (fun acc u => match u with
                               | SetAudioStream a => a
                               | _ => acc
                               end) q (audioStream s).
Proof.
  induction q as [|u q IH]; intros s n; simpl; [repeat split|].
  destruct u; simpl;
    match goal with
    | |- context [fold_left _ q (?s', ?n')] => exact (IH s' n')
    end.
Qed.

(** A render shows the last value queued for each flag. *)
Lemma render_flags env w :
  isActive (ui (render randomId env w)) = shownActive w
  /\ isMuted (ui (render randomId env w)) = shownMuted w
  /\ error (ui (render randomId env w)) = shownError w
  /\ audioStream (ui (render randomId env w)) = shownStream w.
Proof. unfold render. simpl. apply fold_applyUpdate_flags. Qed.

Lemma fold_applyUpdate_entries env rf q : forall s n,
  exists suffix,
    entries (fst (fold_left (applyUpdate randomId env rf) q (s, n)))
    = (entries s ++ suffix)%list
    /\ map role suffix = queuedRoles q.
Proof.
  induction q as [|u q IH]; intros s n; simpl.
  - exists []. now rewrite app_nil_r.
  - destruct u; simpl;
      try match goal with
          | |- context [fold_left _ q (?s', ?n')] => exact (IH s' n')
          end.
    + destruct (IH (mkUI (isActive s) (isMuted s)
                         (entries s ++ [makeEntry randomId env rf n r])
                         (groundingSources s) (audioStream s) (error s))
                   (S n)) as [suf [H1 H2]].
      simpl in H1. eexists. split.
      * rewrite H1, <- app_assoc. reflexivity.
      * simpl. now rewrite H2.
    + destruct (IH (mkUI (isActive s) (isMuted s) (entries s ++ [e])
                         (groundingSources s) (audioStream s) (error s)) n)
        as [suf [H1 H2]].
      simpl in H1. eexists. split.
      * rewrite H1, <- app_assoc. reflexivity.
      * simpl. now rewrite H2.
Qed.

(** A render appends one entry per queued entry update, in queue order. *)
Lemma render_entries env w :
  exists suffix,
    entries (ui (render randomId env w)) = (entries (ui w) ++ suffix)%list
    /\ map role suffix = queuedRoles (queue w).
Proof. unfold render. simpl. apply fold_applyUpdate_entries. Qed.

Lemma queuedRoles_app q1 q2 :
  queuedRoles (q1 ++ q2) = (queuedRoles q1 ++ queuedRoles q2)%list.
Proof. unfold queuedRoles. apply flat_map_app. Qed.

Lemma lastActive_content us : forall base,
  forallb isContentUpdate us = true -> lastActive us base = base.
Proof.
  induction us as [|u us IH]; intros base H; simpl in *; [reflexivity|].
  apply andb_prop in H. destruct H as [Hu Hus].
  destruct u; try discriminate; now apply IH.
Qed.

Lemma lastActive_app q1 q2 base :
  lastActive (q1 ++ q2) base = lastActive q2 (lastActive q1 base).
Proof. unfold lastActive. apply fold_left_app. Qed.

Lemma lastMuted_app q1 q2 base :
  lastMuted (q1 ++ q2) base = lastMuted q2 (lastMuted q1 base).
Proof. unfold lastMuted. apply fold_left_app. Qed.

Lemma ui_stopSession w : ui (stopSession w) = ui w.
Proof. rewrite stopSession_eq. reflexivity. Qed.

(** Only a render changes the React state. *)
Lemma ui_step w env e :
  e <> Render ->
  ui (step decodeAudioData createBlob randomId w (env, e)) = ui w.
Proof.
  intros Hr. destruct e as [g| | | |m| | |f|h|]; simpl.
  - destruct (isActive (ui w)); [reflexivity|]. destruct g; reflexivity.
  - destruct (isActive (ui w)); reflexivity.
  - destruct (isActive (ui w)); [apply ui_stopSession|reflexivity].
  - destruct (callbacks w); reflexivity.
  - destruct (callbacks w) as [cl|]; [|reflexivity].
    apply (react_onmessage decodeAudioData randomId cl env m w).
  - destruct (callbacks w); [|reflexivity]. unfold onerror.
    now rewrite ui_stopSession.
  - destruct (callbacks w); reflexivity.
  - destruct (callbacks w) as [cl|]; [|reflexivity].
    destruct (c_processor cl); [|reflexivity]. unfold onaudioprocess.
    destruct (c_isMuted cl); reflexivity.
  - reflexivity.
  - contradiction.
Qed.

Lemma run_cons w ev evs :
  run decodeAudioData createBlob randomId w (ev :: evs)
  = run decodeAudioData createBlob randomId
        (step decodeAudioData createBlob randomId w ev) evs.
Proof. reflexivity. Qed.

(** X3.
    The transcript is append-only: whatever happens, the entries rendered
    before stay where they are, unchanged, and new ones come after them. *)
Theorem transcript_append_only w evs :
  exists suffix,
    entries (ui (run decodeAudioData createBlob randomId w evs))
    = (entries (ui w) ++ suffix)%list.
Proof.
  revert w. induction evs as [|[env e] evs IH]; intros w.
  - exists []. simpl. now rewrite app_nil_r.
  - destruct (IH (step decodeAudioData createBlob randomId w (env, e)))
      as [suf Hsuf].
    rewrite run_cons, Hsuf.
    assert (Hstep : exists s1,
              entries (ui (step decodeAudioData createBlob randomId w (env, e)))
              = (entries (ui w) ++ s1)%list).
    { destruct e; try (exists []; rewrite app_nil_r, ui_step;
                       [reflexivity|discriminate]).
      destruct (render_entries env w) as [s1 [H1 _]]. now exists s1. }
    destruct Hstep as [s1 H1]. exists (s1 ++ suf)%list.
    now rewrite H1, <- app_assoc.
Qed.

(** X4.
    A turn completion adds, at the next render, one entry for each role
    whose buffer is non-empty once the fragments of the same message are
    appended, the user's entry first, after all entries rendered or queued
    before; and it empties both buffers. *)
Theorem turn_completion_roles cl env env' m w :
  turnComplete m = true ->
  let w' := onmessage decodeAudioData randomId cl env m w in
  map role (entries (ui (render randomId env' w')))
  = (map role (entries (ui (render randomId env' w)))
     ++ rolesOfTurn
          ((fst (pending w) ++ fragment (inputTranscription m))%string,
           (snd (pending w) ++ fragment (outputTranscription m))%string))%list
  /\ pending w' = (EmptyString, EmptyString).
Proof.
  intros Ht w'.
  destruct (react_onmessage decodeAudioData randomId cl env m w)
    as [U [_ [P [us [Q [L _]]]]]].
  fold w' in U, P, Q. rewrite Ht in P, L. split; [|exact P].
  destruct (render_entries env' w') as [s1 [H1 R1]].
  destruct (render_entries env' w) as [s0 [H0 R0]].
  rewrite H1, H0, !map_app, R1, R0, U, Q, queuedRoles_app, L, app_assoc.
  reflexivity.
Qed.




End Rendering.

Lemma turn_completion_roles_witness :
  map role
    (entries
       (ui (render demoRandom (at_clock 0%N)
              (onmessage demoDecode demoRandom demoClosure (at_clock 0%N)
                 (mkMessage None false (Some "Hi") None true None)
                 startedWorld))))
  = [user].
Proof.
  destruct (turn_completion_roles demoDecode demoRandom demoClosure
              (at_clock 0%N) (at_clock 0%N)
              (mkMessage None false (Some "Hi") None true None)
              startedWorld eq_refl) as [H _].
  exact H.
Defined.


(** ** Invariants of a session *)

Section Invariants.

Variable decodeAudioData : string -> AudioBuffer.
Variable createBlob : Frame -> string.
Variable randomId : nat -> string.

Lemma playback_eq w c a t n :
  playback w = (c, a, t, n) ->
  cursor w = c /\ audioSourcesRef (refs w) = a /\ trace w = t /\ objects w = n.
Proof.
  unfold playback, cursor. intros H. injection H as H1 H2 H3 H4.
  repeat split; assumption.
Qed.

Lemma callOf_no_track w e added :
  (forall c, In c added -> callOf w e c) -> filter isTrackStop added = [].
Proof.
  induction added as [|c added IH]; intros H; simpl; [reflexivity|].
  rewrite IH by (intros c' Hc'; apply H; now right).
  destruct (H c (or_introl eq_refl))
    as [[h [x [b [t [-> _]]]]]
       |[[h [-> _]]|[[x ->]|[[s ->]|[s [md [cl [-> _]]]]]]]];
    reflexivity.
Qed.

(** X6.
    The trace is append-only, and no event ever calls [stop()] on the
    microphone track: not starting, stopping, an error, a remote close or an
    interruption. *)
Theorem microphone_track_never_stopped w evs :
  exists added,
    trace (run decodeAudioData createBlob randomId w evs)
    = (trace w ++ added)%list
    /\ filter isTrackStop added = [].
Proof.
  revert w. induction evs as [|ev evs IH]; intros w.
  - exists []. simpl. now rewrite app_nil_r.
  - rewrite (run_cons decodeAudioData createBlob randomId).
    destruct (IH (step decodeAudioData createBlob randomId w ev))
      as [a2 [H2 F2]].
    destruct (step_trace decodeAudioData createBlob randomId w ev)
      as [a1 [H1 C1]].
    exists (a1 ++ a2)%list. split.
    + now rewrite H2, H1, <- app_assoc.
    + rewrite filter_app, F2, (callOf_no_track w (snd ev) a1 C1). reflexivity.
Qed.

(** *** The active set *)

Lemma started_app h tr added : started h tr -> started h (tr ++ added).
Proof.
  intros [c [b [t H]]]. exists c, b, t. apply in_or_app. now left.
Qed.

Lemma inv_grow w w' n added :
  activeSetInv w ->
  audioSourcesRef (refs w') = audioSourcesRef (refs w) ->
  trace w' = (trace w ++ added)%list ->
  objects w' = objects w + n ->
  (forall h, ~ In (SourceStop h) added) ->
  activeSetInv w'.
Proof.
  intros [Hnd [Hact Hstop]] Ha Ht Ho Hadd. unfold activeSetInv.
  rewrite Ha, Ht, Ho. split; [exact Hnd|]. split.
  - intros h Hh. destruct (Hact h Hh) as [H1 [H2 H3]].
    split; [lia|]. split; [now apply started_app|].
    intros Hin. apply in_app_or in Hin. destruct Hin as [Hin|Hin];
      [now apply H3|now apply (Hadd h)].
  - intros h Hin. apply in_app_or in Hin. destruct Hin as [Hin|Hin].
    + specialize (Hstop h Hin). lia.
    + now apply Hadd in Hin.
Qed.

Lemma inv_clear w w' added :
  activeSetInv w ->
  audioSourcesRef (refs w') = [] ->
  trace w' = (trace w ++ added)%list ->
  objects w' = objects w ->
  (forall h, In (SourceStop h) added -> In h (audioSourcesRef (refs w))) ->
  activeSetInv w'.
Proof.
  intros [Hnd [Hact Hstop]] Ha Ht Ho Hadd. unfold activeSetInv.
  rewrite Ha, Ht, Ho. split; [constructor|]. split; [intros h []|].
  intros h Hin. apply in_app_or in Hin. destruct Hin as [Hin|Hin].
  - now apply Hstop.
  - apply Hadd in Hin. now apply Hact.
Qed.

Lemma Set_add_fresh h s : ~ In h s -> Set_add h s = (s ++ [h])%list.
Proof.
  intros H. unfold Set_add.
  destruct (existsb (Nat.eqb h) s) eqn:E; [|reflexivity].
  apply existsb_exists in E. destruct E as [x [Hx E]].
  apply Nat.eqb_eq in E. subst x. contradiction.
Qed.

Lemma Set_delete_fresh h s : ~ In h s -> Set_delete h s = s.
Proof.
  intros H. unfold Set_delete. induction s as [|x s IH]; simpl; [reflexivity|].
  destruct (Nat.eqb_spec h x) as [->|Hne]; simpl.
  - exfalso. apply H. now left.
  - f_equal. apply IH. intros Hin. apply H. now right.
Qed.

Lemma Set_delete_snoc h s : ~ In h s -> Set_delete h (s ++ [h]) = s.
Proof.
  intros H. unfold Set_delete. rewrite filter_app. simpl.
  rewrite Nat.eqb_refl. simpl. rewrite app_nil_r.
  now apply (Set_delete_fresh h s).
Qed.

Lemma inv_fresh w :
  activeSetInv w -> ~ In (objects w) (audioSourcesRef (refs w)).
Proof.
  intros [_ [Hact _]] Hin. destruct (Hact _ Hin) as [H _]. lia.
Qed.

Lemma inv_handleAudio cl env data w :
  activeSetInv w -> activeSetInv (handleAudio decodeAudioData cl env data w).
Proof.
  intros Hinv. pose proof (inv_fresh w Hinv) as Hfresh.
  destruct Hinv as [Hnd [Hact Hstop]].
  pose proof (playback_handleAudio decodeAudioData cl env data w) as Hp.
  set (w' := handleAudio decodeAudioData cl env data w) in *.
  destruct (playback_eq _ _ _ _ _ Hp) as [_ [Ha [Ht Ho]]].
  rewrite Set_add_fresh in Ha by assumption.
  unfold activeSetInv. rewrite Ha, Ht, Ho. split; [|split].
  - apply NoDup_app; [assumption|repeat constructor; simpl; tauto|].
    intros x Hx [<-|[]]. contradiction.
  - intros h Hh. apply in_app_or in Hh. destruct Hh as [Hh|[<-|[]]].
    + destruct (Hact h Hh) as [H1 [H2 H3]]. split; [lia|].
      split; [now apply started_app|].
      intros Hin. apply in_app_or in Hin.
      destruct Hin as [Hin|[Hin|[]]]; [now apply H3|discriminate].
    + split; [lia|]. split.
      * eexists _, _, _. apply in_or_app. right. now left.
      * intros Hin. apply in_app_or in Hin.
        destruct Hin as [Hin|[Hin|[]]]; [|discriminate].
        specialize (Hstop _ Hin). lia.
  - intros h Hin. apply in_app_or in Hin.
    destruct Hin as [Hin|[Hin|[]]]; [|discriminate].
    specialize (Hstop _ Hin). lia.
Qed.

Lemma inv_onmessage cl env m w :
  activeSetInv w ->
  activeSetInv (onmessage decodeAudioData randomId cl env m w).
Proof.
  intros Hinv.
  pose proof (playback_onmessage decodeAudioData randomId cl env m w) as Hp.
  cbv zeta in Hp.
  assert (H1 : activeSetInv
                 (if carriesAudio m
                  then handleAudio decodeAudioData cl env (payload m) w
                  else w))
    by (destruct (carriesAudio m); [now apply inv_handleAudio|exact Hinv]).
  set (w1 := if carriesAudio m
             then handleAudio decodeAudioData cl env (payload m) w
             else w) in *.
  set (w' := onmessage decodeAudioData randomId cl env m w) in *.
  destruct (interrupted m);
    destruct (playback_eq _ _ _ _ _ Hp) as [_ [Ha [Ht Ho]]].
  - apply (inv_clear w1 w' _ H1 Ha Ht Ho).
    intros h Hin. apply in_map_iff in Hin. destruct Hin as [x [E Hx]].
    injection E as <-. exact Hx.
  - apply (inv_grow w1 w' 0 [] H1 Ha); [now rewrite app_nil_r|lia|].
    intros h [].
Qed.

Lemma inv_stopSession w : activeSetInv w -> activeSetInv (stopSession w).
Proof.
  intros Hinv. pose proof (playback_stopSession w) as Hp.
  destruct (playback_eq _ _ _ _ _ Hp) as [_ [Ha [Ht Ho]]].
  apply (inv_clear w (stopSession w) _ Hinv Ha Ht Ho).
  intros h Hin. apply In_teardownEffects in Hin.
  destruct Hin as [[c E]|[[x [E Hx]]|[s E]]]; try discriminate.
  injection E as <-. exact Hx.
Qed.

Lemma inv_onended h w : activeSetInv w -> activeSetInv (onended h w).
Proof.
  intros [Hnd [Hact Hstop]]. unfold activeSetInv, onended. simpl.
  split; [|split].
  - unfold Set_delete. now apply NoDup_filter.
  - intros x Hx. unfold Set_delete in Hx. apply filter_In in Hx.
    apply Hact. tauto.
  - exact Hstop.
Qed.

Lemma inv_step w ev :
  activeSetInv w ->
  activeSetInv (step decodeAudioData createBlob randomId w ev).
Proof.
  intros Hinv. destruct ev as [env e].
  destruct e as [g| | | |m| | |f|h|]; simpl.
  - destruct (isActive (ui w)); [exact Hinv|]. destruct g.
    + apply (inv_grow w _ 4 [] Hinv); try reflexivity.
      * simpl. now rewrite app_nil_r.
      * intros h [].
    + apply (inv_grow w _ 0 [] Hinv); try reflexivity.
      * simpl. now rewrite app_nil_r.
      * simpl. lia.
      * intros h [].
  - destruct (isActive (ui w)); [|exact Hinv].
    apply (inv_grow w _ 0 [] Hinv); try reflexivity.
    + simpl. now rewrite app_nil_r.
    + simpl. lia.
    + intros h [].
  - destruct (isActive (ui w)); [now apply inv_stopSession|exact Hinv].
  - destruct (callbacks w); [|exact Hinv].
    apply (inv_grow w _ 2 [] Hinv); try reflexivity.
    + simpl. now rewrite app_nil_r.
    + intros h [].
  - destruct (callbacks w); [now apply inv_onmessage|exact Hinv].
  - destruct (callbacks w); [|exact Hinv]. unfold onerror.
    apply inv_stopSession.
    apply (inv_grow w _ 0 [] Hinv); try reflexivity.
    + simpl. now rewrite app_nil_r.
    + simpl. lia.
    + intros h [].
  - destruct (callbacks w); [|exact Hinv].
    apply (inv_grow w _ 0 [] Hinv); try reflexivity.
    + simpl. now rewrite app_nil_r.
    + simpl. lia.
    + intros h [].
  - destruct (callbacks w) as [cl|]; [|exact Hinv].
    destruct (c_processor cl); [|exact Hinv]. unfold onaudioprocess.
    destruct (c_isMuted cl); [exact Hinv|].
    apply (inv_grow w _ 0 [SendRealtimeInput (c_sessionPromise cl)
                                             (createBlob f)] Hinv);
      try reflexivity.
    + simpl. lia.
    + intros x [H|[]]. discriminate.
  - now apply inv_onended.
  - apply (inv_grow w _ 0 [] Hinv); try reflexivity.
    + simpl. now rewrite app_nil_r.
    + simpl. lia.
    + intros h [].
Qed.

(** X7.
    Whatever happens from the initial state, the active set holds distinct
    sources, each of them created, started and not yet stopped. *)
Theorem active_set_invariant evs :
  activeSetInv (run decodeAudioData createBlob randomId initialWorld evs).
Proof.
  assert (H : forall w, activeSetInv w ->
                activeSetInv (run decodeAudioData createBlob randomId w evs)).
  { induction evs as [|ev evs IH]; intros w Hw; [exact Hw|].
    rewrite (run_cons decodeAudioData createBlob randomId). apply IH.
    now apply inv_step. }
  apply H. unfold activeSetInv. simpl. split; [constructor|].
  split; intros h [].
Qed.

(** X8.
    When the chunk a message has scheduled ends by itself, the active set is
    what it was before the message. *)
Theorem natural_end_restores_active_set cl env m w :
  Forall (fun h => h < objects w) (audioSourcesRef (refs w)) ->
  carriesAudio m = true -> interrupted m = false ->
  let w' := onmessage decodeAudioData randomId cl env m w in
  In (objects w) (audioSourcesRef (refs w'))
  /\ audioSourcesRef (refs (onended (objects w) w')) = audioSourcesRef (refs w).
Proof.
  intros Hall Ha Hi w'.
  assert (Hfresh : ~ In (objects w) (audioSourcesRef (refs w))).
  { intros Hin. rewrite Forall_forall in Hall. specialize (Hall _ Hin). lia. }
  pose proof (playback_onmessage_audio decodeAudioData randomId cl env m w
                Ha Hi) as Hp.
  fold w' in Hp. destruct (playback_eq _ _ _ _ _ Hp) as [_ [Hact _]].
  rewrite Set_add_fresh in Hact by assumption. split.
  - rewrite Hact. apply in_or_app. right. now left.
  - unfold onended. simpl. rewrite Hact. now apply Set_delete_snoc.
Qed.

End Invariants.

Lemma natural_end_restores_active_set_witness :
  audioSourcesRef
    (refs (onended 8
             (onmessage demoDecode demoRandom demoClosure (at_clock 6%N)
                (audioMessage "abcd") activeWorld)))
  = [6].
Proof.
  destruct (natural_end_restores_active_set demoDecode demoRandom demoClosure
              (at_clock 6%N) (audioMessage "abcd") activeWorld) as [_ H].
  - repeat constructor.
  - reflexivity.
  - reflexivity.
  - exact H.
Defined.

(** ** Lifecycle, mute and citations over whole runs *)

Section Lifecycle.

Variable decodeAudioData : string -> AudioBuffer.
Variable createBlob : Frame -> string.
Variable randomId : nat -> string.

(** *** The captured mute flag *)





(** *** Mute clicks *)

Lemma lastMuted_snoc q b base : lastMuted (q ++ [SetIsMuted b]) base = b.
Proof. rewrite lastMuted_app. reflexivity. Qed.

(** X10.
    One click on the mute button inverts the flag at the next render; two
    clicks with a render in between restore it; two clicks before React has
    rendered invert it once only, since both handlers read the flag of the
    same render. *)
Theorem mute_clicks env w :
  isMuted (ui (render randomId env (toggleMute w))) = negb (isMuted (ui w))
  /\ isMuted (ui (render randomId env
                    (toggleMute (render randomId env (toggleMute w)))))
     = isMuted (ui w)
  /\ isMuted (ui (render randomId env (toggleMute (toggleMute w))))
     = negb (isMuted (ui w)).
Proof.
  assert (H1 : forall v, isMuted (ui (render randomId env (toggleMute v)))
                         = negb (isMuted (ui v))).
  { intros v. destruct (render_flags randomId env (toggleMute v))
      as [_ [H _]].
    rewrite H. unfold shownMuted, toggleMute. simpl. apply lastMuted_snoc. }
  split; [apply H1|]. split.
  - rewrite H1, H1. apply negb_involutive.
  - rewrite H1. reflexivity.
Qed.

(** *** Becoming active and ending *)

Lemma lastActive_snoc_other q u base :
  (forall b, u <> SetIsActive b) ->
  lastActive (q ++ [u]) base = lastActive q base.
Proof.
  intros H. rewrite lastActive_app. destruct u; try reflexivity.
  exfalso. now apply (H b).
Qed.

Lemma shownActive_render env w :
  shownActive (render randomId env w) = shownActive w.
Proof.
  destruct (render_flags randomId env w) as [H _].
  unfold shownActive at 1. simpl. exact H.
Qed.

Lemma shownActive_stopSession w : shownActive (stopSession w) = false.
Proof.
  rewrite stopSession_eq. unfold shownActive. simpl.
  rewrite lastActive_app. reflexivity.
Qed.

(** X11.
    The session is shown as active only once the connection has opened: no
    other event turns the flag on. *)
Theorem active_only_after_open w env e :
  isOpen e = false ->
  shownActive (step decodeAudioData createBlob randomId w (env, e)) = true ->
  shownActive w = true.
Proof.
  intros Ho. destruct e as [g| | | |m| | |f|h|]; simpl; try discriminate.
  - destruct (isActive (ui w)); [tauto|]. destruct g; unfold shownActive;
      simpl; rewrite ?lastActive_app; simpl; tauto.
  - destruct (isActive (ui w)); [|tauto]. unfold shownActive, toggleMute.
    simpl. rewrite lastActive_app. simpl. tauto.
  - destruct (isActive (ui w)); [|tauto].
    rewrite shownActive_stopSession. discriminate.
  - destruct (callbacks w) as [cl|]; [|tauto].
    destruct (react_onmessage decodeAudioData randomId cl env m w)
      as [U [_ [_ [us [Q [_ K]]]]]].
    unfold shownActive. rewrite U, Q, lastActive_app.
    now rewrite (lastActive_content us _ K).
  - destruct (callbacks w); [|tauto]. unfold onerror.
    rewrite shownActive_stopSession. discriminate.
  - destruct (callbacks w); [|tauto]. unfold shownActive, onclose. simpl.
    rewrite lastActive_app. simpl. discriminate.
  - destruct (callbacks w) as [cl|]; [|tauto].
    destruct (c_processor cl); [|tauto]. unfold onaudioprocess.
    destruct (c_isMuted cl); tauto.
  - tauto.
  - now rewrite shownActive_render.
Qed.

Lemma shown_snoc3 env w q u1 u2 u3 :
  queue w = (q ++ [u1; u2; u3])%list ->
  ui (render randomId env w) =
  fst (applyUpdate randomId env (refs w)
         (applyUpdate randomId env (refs w)
            (applyUpdate randomId env (refs w)
               (fold_left (applyUpdate randomId env (refs w)) q
                          (ui w, randoms w)) u1) u2) u3).
Proof.
  intros H. unfold render. rewrite H, fold_left_app. reflexivity.
Qed.

(** X12.
    After a transport error the next render shows the session inactive,
    the connection error message and no stream, and the playback set is
    empty; after a remote close it shows the session inactive as well, but
    the stream reference, the error message, the refs and the trace are what
    they were. *)
Theorem ended_session_display cl env env' w :
  callbacks w = Some cl ->
  let errored := step decodeAudioData createBlob randomId w (env, Error) in
  let closed := step decodeAudioData createBlob randomId w (env, Close) in
  isActive (ui (render randomId env' errored)) = false
  /\ error (ui (render randomId env' errored))
     = Some "Connection error occurred. Please try again."
  /\ audioStream (ui (render randomId env' errored)) = None
  /\ audioSourcesRef (refs errored) = []
  /\ isActive (ui (render randomId env' closed)) = false
  /\ audioStream (ui (render randomId env' closed))
     = audioStream (ui (render randomId env' w))
  /\ error (ui (render randomId env' closed))
     = error (ui (render randomId env' w))
  /\ refs closed = refs w /\ trace closed = trace w.
Proof.
  intros Hcb errored closed. unfold errored, closed, step. rewrite Hcb.
  assert (He : ui (render randomId env' (onerror w)) =
               fst (applyUpdate randomId env' (refs (onerror w))
                 (applyUpdate randomId env' (refs (onerror w))
                   (applyUpdate randomId env' (refs (onerror w))
                     (fold_left (applyUpdate randomId env' (refs (onerror w)))
                        (queue w) (ui (onerror w), randoms (onerror w)))
                     (SetError
                        (Some "Connection error occurred. Please try again.")))
                   (SetIsActive false)) (SetAudioStream None))).
  { apply shown_snoc3. unfold onerror. rewrite stopSession_eq. simpl.
    rewrite <- app_assoc. reflexivity. }
  destruct (render_flags randomId env' (onclose w)) as [A [_ [E S]]].
  destruct (render_flags randomId env' w) as [_ [_ [E0 S0]]].
  repeat split.
  - rewrite He. destruct (fold_left _ (queue w) _). reflexivity.
  - rewrite He. destruct (fold_left _ (queue w) _). reflexivity.
  - rewrite He. destruct (fold_left _ (queue w) _). reflexivity.
  - unfold onerror. rewrite stopSession_eq. reflexivity.
  - rewrite A. unfold shownActive, onclose. simpl.
    rewrite lastActive_app. reflexivity.
  - rewrite S, S0. unfold shownStream, onclose. simpl.
    rewrite fold_left_app. reflexivity.
  - rewrite E, E0. unfold shownError, onclose. simpl.
    rewrite fold_left_app. reflexivity.
Qed.

(** *** Starting *)


(** *** Citations *)

Lemma sourcesOf_NoDup q : forall base,
  NoDup (map uri base) -> NoDup (map uri (sourcesOf q base)).
Proof.
  induction q as [|u q IH]; intros base H; simpl; [exact H|].
  destruct u; try (now apply IH).
  apply IH. unfold mergeSources. rewrite dedupe_uris.
  apply first_occurrences_NoDup.
Qed.

(** X14.
    The citation sequence shown never holds a URI twice, whatever messages
    arrive and whenever React renders. *)
Theorem citations_stay_distinct w evs :
  NoDup (map uri (groundingSources (ui w))) ->
  NoDup (map uri (groundingSources
                    (ui (run decodeAudioData createBlob randomId w evs)))).
Proof.
  revert w. induction evs as [|[env e] evs IH]; intros w H; [exact H|].
  rewrite (run_cons decodeAudioData createBlob randomId). apply IH.
  destruct e; try (rewrite ui_step; [exact H|discriminate]).
  unfold step. rewrite render_sources. now apply sourcesOf_NoDup.
Qed.

(** *** Messages without content *)

(** X15.
    A message that carries no playable audio, no interruption, no
    transcription and no web chunk changes nothing at all, also when it
    completes a turn in which nothing was said. *)
Theorem empty_message_is_ignored cl env m w :
  carriesNothing m ->
  (turnComplete m = true -> pending w = (EmptyString, EmptyString)) ->
  onmessage decodeAudioData randomId cl env m w = w.
Proof.
  intros [Ha [Hi [Hin [Hout Hg]]]] Ht.
  rewrite onmessage_split, Ha, Hi. unfold afterPlayback, handleTranscriptions.
  cbv zeta. rewrite Hin, Hout.
  assert (Hturn : (if turnComplete m
                   then handleTurnComplete randomId env w else w) = w).
  { destruct (turnComplete m); [|reflexivity].
    specialize (Ht eq_refl). unfold pending in Ht. injection Ht as H1 H2.
    unfold handleTurnComplete.
    destruct w as [u q r t o n c]. destruct r. simpl in *. subst.
    reflexivity. }
  rewrite Hturn. destruct (groundingChunks m) as [chunks|]; [|reflexivity].
  unfold handleGrounding. cbv zeta. rewrite collectSources_eq, Hg.
  reflexivity.
Qed.

(** *** Scheduling under any timing *)

Lemma max_schedule_serves cs : forall c,
  serves cs (max_schedule c cs)
  /\ no_overlap (max_schedule c cs)
  /\ (forall s d, In (s, d) (max_schedule c cs) -> (c <= s)%N).
Proof.
  induction cs as [|[t d] cs IH]; intros c; simpl.
  - repeat split. intros s d0 [].
  - destruct (IH (N.max c t + d)%N) as [H1 [H2 H3]]. split; [|split].
    + repeat split; [lia|exact H1].
    + destruct cs as [|[t' d'] cs]; [exact I|]. simpl in *. split; [lia|].
      exact H2.
    + intros s d0 [E|Hin].
      * injection E as <- <-. lia.
      * specialize (H3 _ _ Hin). lia.
Qed.

(** X16.
    However late or early the chunks of a burst arrive, delivered in order
    they are started one per call with their own duration, never before the
    output clock of their call, never before the cursor of before, and never
    before the chunk scheduled before them has ended. *)
Theorem chunks_never_overlap cl w ms :
  Forall isChunk ms ->
  exists sch,
    scheduled (trace (deliver decodeAudioData randomId cl w ms))
    = (scheduled (trace w) ++ sch)%list
    /\ serves (calls decodeAudioData ms) sch
    /\ no_overlap sch
    /\ (forall s d, In (s, d) sch -> (cursor w <= s)%N).
Proof.
  intros Hall.
  destruct (deliver_schedule decodeAudioData randomId cl ms w Hall) as [H _].
  exists (max_schedule (cursor w) (calls decodeAudioData ms)).
  split; [exact H|]. apply max_schedule_serves.
Qed.

End Lifecycle.


Lemma active_only_after_open_witness : shownActive startedWorld = true.
Proof.
  apply (active_only_after_open demoDecode demoBlob demoRandom startedWorld
           (at_clock 0%N) ClickMute); reflexivity.
Defined.

Lemma ended_session_display_witness :
  error (ui (render demoRandom (at_clock 9%N)
               (demoRun activeWorld [(at_clock 9%N, Error)])))
  = Some "Connection error occurred. Please try again.".
Proof.
  destruct (ended_session_display demoDecode demoBlob demoRandom demoClosure
              (at_clock 9%N) (at_clock 9%N) activeWorld) as [_ [H _]].
  - reflexivity.
  - exact H.
Defined.

Lemma citations_stay_distinct_witness :
  NoDup (map uri (groundingSources
    (ui (demoRun startedWorld
           [(at_clock 0%N,
             Message (groundingMessage
                        [mkChunk (Some (mkWeb (Some "X") "A"));
                         mkChunk (Some (mkWeb (Some "Z") "A"))]));
            (at_clock 0%N, Render)])))).
Proof.
  apply (citations_stay_distinct demoDecode demoBlob demoRandom).
  simpl. constructor.
Defined.

Lemma empty_message_is_ignored_witness :
  onmessage demoDecode demoRandom demoClosure (at_clock 3%N)
    (mkMessage (Some EmptyString) false None None true
               (Some [mkChunk None])) activeWorld
  = activeWorld.
Proof.
  apply empty_message_is_ignored.
  - repeat split.
  - reflexivity.
Defined.

Lemma chunks_never_overlap_witness :
  exists sch,
    scheduled
      (trace (deliver demoDecode demoRandom demoClosure initialWorld
                [(at_clock 5%N, audioMessage "abc");
                 (at_clock 20%N, audioMessage "ab");
                 (at_clock 21%N, audioMessage "abcd")]))
    = sch
    /\ no_overlap sch.
Proof.
  destruct (chunks_never_overlap demoDecode demoRandom demoClosure initialWorld
              [(at_clock 5%N, audioMessage "abc");
               (at_clock 20%N, audioMessage "ab");
               (at_clock 21%N, audioMessage "abcd")])
    as [sch [H [_ [Hno _]]]].
  - repeat constructor.
  - exists sch. split; [exact H|exact Hno].
Defined.

(** ** TranscriptionList.tsx: citation chips *)

Lemma length_append_string (a b : string) :
  String.length (a ++ b) = String.length a + String.length b.
Proof. induction a as [|x a IH]; simpl; [reflexivity|now rewrite IH]. Qed.

Lemma length_substring_0 n : forall s,
  String.length (String.substring 0 n s) = Nat.min n (String.length s).
Proof.
  induction n as [|n IH]; intros [|c s]; simpl; try reflexivity.
  now rewrite IH.
Qed.

(** X17.
    The label of a citation chip is the title itself when the title has at
    most 30 characters; otherwise it is the first 30 characters followed by
    three dots, 33 characters in all.  In both cases it starts with the
    first 30 characters of the title. *)
Theorem chip_label_truncates t :
  (String.length t <= 30 -> chipLabel t = t)
  /\ (30 < String.length t ->
        chipLabel t = String.substring 0 30 t ++ "..."
        /\ String.length (chipLabel t) = 33)
  /\ String.length (chipLabel t) <= 33
  /\ (forall i, i < 30 -> String.get i (chipLabel t) = String.get i t).
Proof.
  unfold chipLabel.
  destruct (Nat.ltb_spec 30 (String.length t)) as [Hlong|Hshort].
  - assert (Hlen : String.length (String.substring 0 30 t) = 30)
      by (rewrite length_substring_0; lia).
    split; [lia|]. split; [|split].
    + intros _. split; [reflexivity|].
      rewrite length_append_string, Hlen. reflexivity.
    + rewrite length_append_string, Hlen. simpl. lia.
    + intros i Hi. rewrite <- append_correct1 by lia.
      rewrite substring_correct1 by assumption. now rewrite Nat.add_0_r.
  - split; [reflexivity|]. split; [lia|]. split; [lia|reflexivity].
Qed.

(** ** AudioVisualizer.tsx: the bars *)

Section VisualizerProofs.
Import QArith Visualizer.
Local Open Scope Q_scope.

Lemma bars_length h bw data : forall x,
  List.length (bars h bw x data) = List.length data.
Proof.
  induction data as [|b data IH]; intros x; simpl; [reflexivity|].
  now rewrite IH.
Qed.

Lemma bars_nth h bw data : forall x i bar,
  nth_error (bars h bw x data) i = Some bar ->
  exists byte,
    nth_error data i = Some byte
    /\ bar_x bar == x + inject_Z (Z.of_nat i) * (bw + 1)
    /\ bar_y bar = h - inject_Z byte / 2
    /\ bar_width bar = bw
    /\ bar_height bar = inject_Z byte / 2
    /\ bar_red bar = inject_Z byte / 2 + 100.
Proof.
  induction data as [|b data IH]; intros x i bar H.
  - destruct i; discriminate.
  - destruct i as [|i]; simpl in H.
    + injection H as <-. exists b. simpl. repeat split. ring.
    + destruct (IH _ _ _ H) as [byte [H1 [H2 H3]]]. exists byte.
      split; [exact H1|]. split; [|exact H3].
      rewrite H2. rewrite Nat2Z.inj_succ. unfold Z.succ.
      rewrite inject_Z_plus. ring.
Qed.

Lemma half_byte b :
  isByte b -> 0 <= inject_Z b / 2 /\ inject_Z b / 2 <= 255 # 2.
Proof.
  intros [H0 H1]. unfold Qle, Qdiv, Qmult, Qinv, inject_Z. simpl. lia.
Qed.

(** X18.
    On the canvas of the component (600 by 100) with the 128 bins of the
    analyser, one frame paints 128 bars: bar [i] at x = i * 12.71875, all
    11.71875 wide (a gap of one unit between neighbours), standing on the
    bottom edge, at most 127.5 high, with a red component between 100 and
    227.5.  The bars of the bins 48 to 127 start at or beyond the right edge
    of the canvas; those of the bins 0 to 47 start inside it. *)
Theorem visualizer_bars dataArray :
  List.length dataArray = 128%nat -> Forall isByte dataArray ->
  let frame := draw 600 100 dataArray in
  List.length frame = 128%nat
  /\ forall i bar, nth_error frame i = Some bar ->
       bar_x bar == inject_Z (Z.of_nat i) * (407 # 32)
       /\ bar_width bar == 375 # 32
       /\ bar_y bar + bar_height bar == 100
       /\ 0 <= bar_height bar /\ bar_height bar <= 255 # 2
       /\ 100 <= bar_red bar /\ bar_red bar <= 455 # 2
       /\ ((48 <= i)%nat -> 600 <= bar_x bar)
       /\ ((i < 48)%nat -> bar_x bar < 600).
Proof.
  intros Hlen Hbytes frame. unfold frame, draw. rewrite Hlen. cbv zeta.
  split; [now rewrite bars_length|].
  intros i bar Hbar. destruct (bars_nth _ _ _ _ _ _ Hbar)
    as [byte [Hd [Hx [Hy [Hw [Hh Hr]]]]]].
  assert (Hb : isByte byte).
  { rewrite Forall_forall in Hbytes. apply Hbytes.
    eapply nth_error_In. exact Hd. }
  destruct (half_byte byte Hb) as [H0 H1].
  assert (Hbw : 600 / inject_Z (Z.of_nat 128) * (5 # 2) == 375 # 32)
    by (vm_compute; reflexivity).
  assert (Hx' : bar_x bar == inject_Z (Z.of_nat i) * (407 # 32)).
  { rewrite Hx, Hbw. unfold Qeq, Qplus, Qmult, inject_Z. simpl. lia. }
  split; [exact Hx'|]. split; [rewrite Hw; exact Hbw|].
  split; [rewrite Hy, Hh; ring|].
  split; [now rewrite Hh|]. split; [now rewrite Hh|].
  split; [rewrite Hr|split; [rewrite Hr|split]].
  - rewrite <- (Qplus_0_l 100) at 1. apply Qplus_le_compat; [exact H0|].
    apply Qle_refl.
  - setoid_replace (455 # 2) with ((255 # 2) + 100) by reflexivity.
    apply Qplus_le_compat; [exact H1|apply Qle_refl].
  - intros Hi. rewrite Hx'. unfold Qle, Qmult, inject_Z. simpl. lia.
  - intros Hi. rewrite Hx'. unfold Qlt, Qmult, inject_Z. simpl. lia.
Qed.

Lemma visualizer_bars_witness :
  List.length (draw 600 100 (repeat 255%Z 128)) = 128%nat.
Proof.
  destruct (visualizer_bars (repeat 255%Z 128)) as [H _].
  - reflexivity.
  - apply Forall_forall. intros x Hx. apply repeat_spec in Hx. subst x.
    unfold isByte. lia.
  - exact H.
Defined.

End VisualizerProofs.

(** ** Each source is stopped at most once *)

Section Stops.

Variable decodeAudioData : string -> AudioBuffer.
Variable createBlob : Frame -> string.
Variable randomId : nat -> string.

Lemma stopsOf_app t1 t2 : stopsOf (t1 ++ t2) = (stopsOf t1 ++ stopsOf t2)%list.
Proof. unfold stopsOf. apply flat_map_app. Qed.

Lemma stopsOf_map l : stopsOf (map SourceStop l) = l.
Proof. induction l as [|h l IH]; simpl; [reflexivity|now rewrite IH]. Qed.

Lemma stopsOf_In h tr : In h (stopsOf tr) <-> In (SourceStop h) tr.
Proof.
  unfold stopsOf. rewrite in_flat_map. split.
  - intros [e [He Hh]]. destruct e; simpl in Hh; try contradiction.
    destruct Hh as [->|[]]. exact He.
  - intros H. exists (SourceStop h). split; [exact H|now left].
Qed.

Lemma stopsOf_teardown r : stopsOf (teardownEffects r) = audioSourcesRef r.
Proof.
  unfold teardownEffects. rewrite !stopsOf_app, stopsOf_map.
  destruct (audioContextInRef r), (audioContextOutRef r),
    (sessionPromiseRef r); simpl; rewrite ?app_nil_r; reflexivity.
Qed.

Lemma stops_grow w w' added :
  stopsInv w -> trace w' = (trace w ++ added)%list -> stopsOf added = [] ->
  stopsInv w'.
Proof.
  intros [Hnd Hst] Ht Hadd. unfold stopsInv. rewrite Ht, stopsOf_app, Hadd.
  rewrite app_nil_r. split; [exact Hnd|].
  intros h Hin. apply in_app_or in Hin. destruct Hin as [Hin|Hin].
  - apply started_app. now apply Hst.
  - apply stopsOf_In in Hin. rewrite Hadd in Hin. contradiction.
Qed.

Lemma stops_same w w' : stopsInv w -> trace w' = trace w -> stopsInv w'.
Proof.
  intros H Ht. apply (stops_grow w w' [] H); [|reflexivity].
  now rewrite app_nil_r.
Qed.

Lemma stops_clear w w' added :
  stopsInv w -> activeSetInv w ->
  trace w' = (trace w ++ added)%list ->
  stopsOf added = audioSourcesRef (refs w) ->
  stopsInv w'.
Proof.
  intros [Hnd Hst] [Hnd' [Hact _]] Ht Hadd. unfold stopsInv.
  rewrite Ht, stopsOf_app, Hadd. split.
  - apply NoDup_app; [assumption..|].
    intros x Hx Hx'. apply stopsOf_In in Hx.
    destruct (Hact x Hx') as [_ [_ Hno]]. contradiction.
  - intros h Hin. apply started_app. apply in_app_or in Hin.
    destruct Hin as [Hin|Hin]; [now apply Hst|].
    apply stopsOf_In in Hin. rewrite Hadd in Hin. now apply Hact.
Qed.

Lemma stops_handleAudio cl env data w :
  stopsInv w -> stopsInv (handleAudio decodeAudioData cl env data w).
Proof.
  intros H.
  destruct (playback_eq _ _ _ _ _
              (playback_handleAudio decodeAudioData cl env data w))
    as [_ [_ [Ht _]]].
  apply (stops_grow w _ _ H Ht). reflexivity.
Qed.

Lemma stops_onmessage cl env m w :
  activeSetInv w -> stopsInv w ->
  stopsInv (onmessage decodeAudioData randomId cl env m w).
Proof.
  intros Hinv Hs.
  pose proof (playback_onmessage decodeAudioData randomId cl env m w) as Hp.
  cbv zeta in Hp.
  assert (H1 : activeSetInv
                 (if carriesAudio m
                  then handleAudio decodeAudioData cl env (payload m) w
                  else w)
               /\ stopsInv
                 (if carriesAudio m
                  then handleAudio decodeAudioData cl env (payload m) w
                  else w)).
  { destruct (carriesAudio m); split; try assumption.
    - now apply inv_handleAudio.
    - now apply stops_handleAudio. }
  destruct H1 as [I1 S1].
  destruct (interrupted m); destruct (playback_eq _ _ _ _ _ Hp)
    as [_ [_ [Ht _]]].
  - apply (stops_clear _ _ _ S1 I1 Ht). apply stopsOf_map.
  - apply (stops_same _ _ S1 Ht).
Qed.

Lemma stops_stopSession w :
  activeSetInv w -> stopsInv w -> stopsInv (stopSession w).
Proof.
  intros Hinv Hs.
  destruct (playback_eq _ _ _ _ _ (playback_stopSession w)) as [_ [_ [Ht _]]].
  apply (stops_clear _ _ _ Hs Hinv Ht). apply stopsOf_teardown.
Qed.

Lemma stops_step w ev :
  activeSetInv w -> stopsInv w ->
  stopsInv (step decodeAudioData createBlob randomId w ev).
Proof.
  intros Hinv Hs. destruct ev as [env e].
  destruct e as [g| | | |m| | |f|h|]; simpl.
  - destruct (isActive (ui w)); [exact Hs|].
    destruct g; apply (stops_same w _ Hs); reflexivity.
  - destruct (isActive (ui w)); [|exact Hs].
    apply (stops_same w _ Hs); reflexivity.
  - destruct (isActive (ui w)); [now apply stops_stopSession|exact Hs].
  - destruct (callbacks w); [|exact Hs].
    apply (stops_same w _ Hs); reflexivity.
  - destruct (callbacks w); [now apply stops_onmessage|exact Hs].
  - destruct (callbacks w); [|exact Hs]. unfold onerror.
    apply stops_stopSession.
    + apply (inv_grow w _ 0 [] Hinv); try reflexivity.
      * simpl. now rewrite app_nil_r.
      * simpl. lia.
      * intros x [].
    + apply (stops_same w _ Hs); reflexivity.
  - destruct (callbacks w); [|exact Hs].
    apply (stops_same w _ Hs); reflexivity.
  - destruct (callbacks w) as [cl|]; [|exact Hs].
    destruct (c_processor cl); [|exact Hs]. unfold onaudioprocess.
    destruct (c_isMuted cl); [exact Hs|].
    apply (stops_grow w _ [SendRealtimeInput (c_sessionPromise cl)
                                             (createBlob f)] Hs);
      reflexivity.
  - apply (stops_same w _ Hs); reflexivity.
  - apply (stops_same w _ Hs); reflexivity.
Qed.

(** X19.
    Whatever happens from the initial state, no source is stopped twice
    (by interruptions, stops and errors together), and only sources that had
    been started are stopped. *)
Theorem sources_stopped_at_most_once evs :
  let tr := trace (run decodeAudioData createBlob randomId initialWorld evs) in
  NoDup (stopsOf tr)
  /\ (forall h, In (SourceStop h) tr -> started h tr).
Proof.
  assert (H : forall w, activeSetInv w -> stopsInv w ->
                activeSetInv (run decodeAudioData createBlob randomId w evs)
                /\ stopsInv (run decodeAudioData createBlob randomId w evs)).
  { induction evs as [|ev evs IH]; intros w Hi Hs; [now split|].
    change (run decodeAudioData createBlob randomId w (ev :: evs))
      with (run decodeAudioData createBlob randomId
              (step decodeAudioData createBlob randomId w ev) evs).
    apply IH; [now apply inv_step|now apply stops_step]. }
  apply H.
  - unfold activeSetInv. simpl. split; [constructor|]. split; intros h [].
  - unfold stopsInv. simpl. split; [constructor|intros h []].
Qed.

End Stops.
